(** * AgentCheck (datadog_checks/checks/base.py): metric-name normalization
      and the submission helpers of the base check class.

    The first part embeds the regular expressions of [normalize] and
    [convert_to_underscore_separated] through a small backtracking matcher with
    the priorities of Python's [re] module (leftmost match, greedy repetition,
    ordered alternation) and [re.sub] on top of it.  Python 2 [str] values are
    byte strings: they are lists of [ascii] here. *)

From Stdlib Require Import Ascii String ZArith NArith Lia.
From Stdlib Require Floats.SpecFloat.
From stdpp Require Import base option list gmap strings.

Local Open Scope char_scope.
Local Open Scope list_scope.

Abbreviation bytes := (list ascii).

(** A byte string written as a literal. *)
Definition str (s : string) : bytes := list_ascii_of_string s.

(** ** Character sets *)

Module Re.

(** One item between the brackets of a character set. *)
Inductive citem :=
| Chr (c : ascii)            (* a literal character, escaped or not *)
| Rng (lo hi : ascii)        (* lo-hi *)
| Space.                     (* \s, without the LOCALE and UNICODE flags *)

Inductive cset :=
| Dot                        (* . : anything but a newline *)
| OneOf (l : list citem)     (* [...] *)
| NoneOf (l : list citem).   (* [^...] *)

Definition code (c : ascii) : N := N_of_ascii c.

Definition whitespace (c : ascii) : bool :=
  existsb (Ascii.eqb c) [" "; "009"; "010"; "011"; "012"; "013"].

Definition citem_mem (i : citem) (c : ascii) : bool :=
  match i with
  | Chr d => Ascii.eqb c d
  | Rng lo hi => (code lo <=? code c)%N && (code c <=? code hi)%N
  | Space => whitespace c
  end.

Definition cset_mem (cs : cset) (c : ascii) : bool :=
  match cs with
  | Dot => negb (Ascii.eqb c "010")
  | OneOf l => existsb (fun i => citem_mem i c) l
  | NoneOf l => negb (existsb (fun i => citem_mem i c) l)
  end.

(** ** Patterns

    Repetition is only ever applied to a character set in the patterns of
    base.py, which keeps the matcher structurally recursive. *)
Inductive regex :=
| Cls (cs : cset)            (* one character of a set; a literal is [Lit1] *)
| Bol                        (* ^ *)
| Eol                        (* $ *)
| Cat (r1 r2 : regex)        (* r1 r2 *)
| Alt (r1 r2 : regex)        (* r1|r2 *)
| Star (cs : cset)           (* cs*, greedy *)
| Plus (cs : cset)           (* cs+, greedy *)
| Grp (i : nat) (r : regex). (* the i-th capturing group *)

Definition Lit1 (c : ascii) : regex := Cls (OneOf [Chr c]).

(** Captured groups, most recent first. *)
Definition groups := list (nat * bytes).

(** [$] without MULTILINE: at the end, or before a newline that ends the
    subject. *)
Definition at_eol (s : bytes) : bool :=
  match s with
  | [] => true
  | [c] => Ascii.eqb c "010"
  | _ => false
  end.

(** [cs*] followed by the continuation [k]: the longest run first, then
    shorter ones.  [bos] tells whether the position is the start of the
    subject. *)
Fixpoint greedy {A} (cs : cset) (bos : bool) (s : bytes)
    (k : bool -> bytes -> option A) : option A :=
  match s with
  | c :: t =>
      if cset_mem cs c then
        match greedy cs false t k with
        | Some x => Some x
        | None => k bos s
        end
      else k bos s
  | [] => k bos s
  end.

(** [rmatch r bos s g k]: match [r] at the head of [s], then continue with
    [k] on what is left; [None] when every alternative fails. *)
Fixpoint rmatch {A} (r : regex) (bos : bool) (s : bytes) (g : groups)
    (k : bool -> bytes -> groups -> option A) : option A :=
  match r with
  | Cls cs =>
      match s with
      | c :: t => if cset_mem cs c then k false t g else None
      | [] => None
      end
  | Bol => if bos then k bos s g else None
  | Eol => if at_eol s then k bos s g else None
  | Cat r1 r2 => rmatch r1 bos s g (fun b s' g' => rmatch r2 b s' g' k)
  | Alt r1 r2 =>
      match rmatch r1 bos s g k with
      | Some x => Some x
      | None => rmatch r2 bos s g k
      end
  | Star cs => greedy cs bos s (fun b s' => k b s' g)
  | Plus cs =>
      match s with
      | c :: t =>
          if cset_mem cs c then greedy cs false t (fun b s' => k b s' g)
          else None
      | [] => None
      end
  | Grp i r =>
      rmatch r bos s g
        (fun b s' g' => k b s' ((i, take (length s - length s') s) :: g'))
  end.

(** The match that starts exactly at the head of [s], as the number of
    characters it spans and its groups. *)
Definition match_at (r : regex) (bos : bool) (s : bytes) : option (nat * groups) :=
  rmatch r bos s [] (fun _ s' g => Some (length s - length s', g)).

(** ** Replacement templates *)
Inductive titem :=
| Lit (b : bytes)            (* literal text *)
| Ref (i : nat).             (* \i *)

Definition group (g : groups) (i : nat) : bytes :=
  match find (fun p => Nat.eqb (fst p) i) g with
  | Some p => snd p
  | None => []
  end.

Definition expand (tpl : list titem) (g : groups) : bytes :=
  flat_map (fun it => match it with Lit b => b | Ref i => group g i end) tpl.

(** ** re.sub

    The subject is scanned from left to right.  [skip] counts the characters
    of the current match still to be passed over; [adj] tells that a match
    ended at the current position, where Python 2 does not replace an empty
    match. *)
Fixpoint sub_loop (r : regex) (tpl : list titem) (bos adj : bool) (skip : nat)
    (s : bytes) : bytes :=
  match skip with
  | S n =>
      match s with
      | _ :: t => sub_loop r tpl false true n t
      | [] => []
      end
  | O =>
      match match_at r bos s with
      | Some (S n, g) =>
          expand tpl g ++
          match s with
          | _ :: t => sub_loop r tpl false true n t
          | [] => []
          end
      | Some (O, g) =>
          (if adj then [] else expand tpl g) ++
          match s with
          | c :: t => c :: sub_loop r tpl false false 0 t
          | [] => []
          end
      | None =>
          match s with
          | c :: t => c :: sub_loop r tpl false false 0 t
          | [] => []
          end
      end
  end.

Definition sub (r : regex) (tpl : list titem) (s : bytes) : bytes :=
  sub_loop r tpl true false 0 s.

End Re.

Import Re.

(** ** str.lower and str.strip *)

Definition lower_char (c : ascii) : ascii :=
  if citem_mem (Rng "A" "Z") c then ascii_of_N (code c + 32) else c.

(** [s.lower()] in the C locale. *)
Definition lower (s : bytes) : bytes := map lower_char s.

Fixpoint lstrip (x : ascii) (s : bytes) : bytes :=
  match s with
  | c :: t => if Ascii.eqb c x then lstrip x t else s
  | [] => []
  end.

Definition rstrip (x : ascii) (s : bytes) : bytes :=
  reverse (lstrip x (reverse s)).

(** [s.strip(x)] for a one-character argument. *)
Definition strip (x : ascii) (s : bytes) : bytes := rstrip x (lstrip x s).

(** ** The patterns of base.py *)

Definition us : cset := OneOf [Chr "_"].

(** r"[,\+\*\-/()\[\]{}\s]" *)
Definition SEPARATORS : regex :=
  Cls (OneOf [Chr ","; Chr "+"; Chr "*"; Chr "-"; Chr "/"; Chr "("; Chr ")";
              Chr "["; Chr "]"; Chr "{"; Chr "}"; Space]).
(** r"__+" *)
Definition MULTIPLE_US : regex := Cat (Lit1 "_") (Plus us).
(** r"^_" *)
Definition LEADING_US : regex := Cat Bol (Lit1 "_").
(** r"_$" *)
Definition TRAILING_US : regex := Cat (Lit1 "_") Eol.
(** r"\._" *)
Definition DOT_US : regex := Cat (Lit1 ".") (Lit1 "_").
(** r"_\." *)
Definition US_DOT : regex := Cat (Lit1 "_") (Lit1 ".").

(** '(.)([A-Z][a-z]+)' *)
Definition FIRST_CAP_RE : regex :=
  Cat (Grp 1 (Cls Dot))
      (Grp 2 (Cat (Cls (OneOf [Rng "A" "Z"])) (Plus (OneOf [Rng "a" "z"])))).
(** '([a-z0-9])([A-Z])' *)
Definition ALL_CAP_RE : regex :=
  Cat (Grp 1 (Cls (OneOf [Rng "a" "z"; Rng "0" "9"])))
      (Grp 2 (Cls (OneOf [Rng "A" "Z"]))).
(** r'([^a-zA-Z0-9_.]+)|(^[^a-zA-Z]+)' *)
Definition METRIC_REPLACEMENT : regex :=
  Alt (Grp 1 (Plus (NoneOf [Rng "a" "z"; Rng "A" "Z"; Rng "0" "9";
                            Chr "_"; Chr "."])))
      (Grp 2 (Cat Bol (Plus (NoneOf [Rng "a" "z"; Rng "A" "Z"])))).
(** r'_*\._*' *)
Definition DOT_UNDERSCORE_CLEANUP : regex :=
  Cat (Star us) (Cat (Lit1 ".") (Star us)).

(** ** convert_to_underscore_separated and normalize *)

Definition convert_to_underscore_separated (name : bytes) : bytes :=
  let metric_name := sub FIRST_CAP_RE [Ref 1; Lit (str "_"); Ref 2] name in
  let metric_name := lower (sub ALL_CAP_RE [Ref 1; Lit (str "_"); Ref 2] metric_name) in
  let metric_name := sub METRIC_REPLACEMENT [Lit (str "_")] metric_name in
  strip "_" (sub DOT_UNDERSCORE_CLEANUP [Lit (str ".")] metric_name).

(** The five substitutions that follow the branch on [fix_case]. *)
Definition cleanup (name : bytes) : bytes :=
  (* Eliminate multiple _ *)
  let name := sub MULTIPLE_US [Lit (str "_")] name in
  (* Don't start/end with _ *)
  let name := sub LEADING_US [Lit []] name in
  let name := sub TRAILING_US [Lit []] name in
  (* Drop ._ and _. *)
  let name := sub DOT_US [Lit (str ".")] name in
  sub US_DOT [Lit (str ".")] name.

(** The metric name is a [str] or a [unicode] object (a list of code points). *)
Inductive pystring :=
| Str (b : bytes)
| Unicode (u : list N).

(** [u.encode('ascii', 'ignore')] *)
Definition encode_ascii_ignore (u : list N) : bytes :=
  omap (fun n => if (n <? 128)%N then Some (ascii_of_N n) else None) u.

Section Normalize.

(** [unicodedata.normalize('NFKD', _)], from the Unicode tables of the
    interpreter. *)
Variable NFKD : list N -> list N.

Definition normalize (metric : pystring) (prefix : option bytes)
    (fix_case : bool) : bytes :=
  let metric_name :=
    match metric with
    | Unicode u => encode_ascii_ignore (NFKD u)
    | Str b => b
    end in
  let '(name, prefix) :=
    if fix_case then
      (convert_to_underscore_separated metric_name,
       match prefix with
       | Some p => Some (convert_to_underscore_separated p)
       | None => None
       end)
    else (sub SEPARATORS [Lit (str "_")] metric_name, prefix) in
  let name := cleanup name in
  match prefix with
  | Some p => p ++ str "." ++ name
  | None => name
  end.

End Normalize.

(** ** Properties of names, and what each substitution computes

    [startswith], [endswith] and [contains] are the Python tests of the same
    names ([p in s] for [contains]).  The functions that follow are the
    direct, pattern-free descriptions of the substitutions; each is proved
    equal to [Re.sub] on its pattern below. *)

Fixpoint startswith (p s : bytes) : bool :=
  match p, s with
  | [], _ => true
  | a :: p', c :: s' => Ascii.eqb c a && startswith p' s'
  | _ :: _, [] => false
  end.

Definition endswith (p s : bytes) : bool :=
  startswith (reverse p) (reverse s).

Fixpoint contains (p s : bytes) : bool :=
  startswith p s ||
  match s with
  | _ :: t => contains p t
  | [] => false
  end.

(** The guarantees of [normalize] on its result. *)
Definition well_formed (r : bytes) : Prop :=
  contains (str "__") r = false /\
  startswith (str "_") r = false /\
  endswith (str "_") r = false /\
  contains (str "._") r = false /\
  contains (str "_.") r = false.

(** The shortest text a pattern can match. *)
Fixpoint min_len (r : regex) : nat :=
  match r with
  | Cls _ | Plus _ => 1
  | Bol | Eol | Star _ => 0
  | Cat r1 r2 => min_len r1 + min_len r2
  | Alt r1 r2 => Nat.min (min_len r1) (min_len r2)
  | Grp _ r => min_len r
  end.

(** The length of the longest prefix of [s] inside [cs]. *)
Fixpoint span (cs : cset) (s : bytes) : nat :=
  match s with
  | c :: t => if cset_mem cs c then S (span cs t) else 0
  | [] => 0
  end.

(** Every character of a set replaced by [x]. *)
Definition replace_class (cs : cset) (x : ascii) (s : bytes) : bytes :=
  map (fun c => if cset_mem cs c then x else c) s.

(** A run of two or more [x] reduced to one. *)
Fixpoint squeeze (x : ascii) (s : bytes) : bytes :=
  match s with
  | c :: t =>
      if Ascii.eqb c x && startswith [x] t then squeeze x t
      else c :: squeeze x t
  | [] => []
  end.

(** A leading [x] removed. *)
Definition drop_leading (x : ascii) (s : bytes) : bytes :=
  match s with
  | c :: t => if Ascii.eqb c x then t else s
  | [] => []
  end.

(** An [x] removed where [$] matches after it. *)
Fixpoint drop_trailing (x : ascii) (s : bytes) : bytes :=
  match s with
  | c :: t => if Ascii.eqb c x && at_eol t then t else c :: drop_trailing x t
  | [] => []
  end.

(** Each [a b] replaced by [x], from left to right. *)
Fixpoint replace_pair (a b x : ascii) (s : bytes) : bytes :=
  match s with
  | c :: t =>
      match t with
      | d :: t' =>
          if Ascii.eqb c a && Ascii.eqb d b then x :: replace_pair a b x t'
          else c :: replace_pair a b x t
      | [] => [c]
      end
  | [] => []
  end.

(** The characters that the [fix_case=False] branch turns into underscores:
    , + * - / ( ) [ ] { } and whitespace. *)
Definition separator (c : ascii) : bool :=
  cset_mem (OneOf [Chr ","; Chr "+"; Chr "*"; Chr "-"; Chr "/"; Chr "("; Chr ")";
                   Chr "["; Chr "]"; Chr "{"; Chr "}"; Space]) c.

Definition is_digit (c : ascii) : bool := citem_mem (Rng "0" "9") c.
Definition is_upper (c : ascii) : bool := citem_mem (Rng "A" "Z") c.

(** A letter or a digit. *)
Definition alphanumeric (c : ascii) : bool :=
  citem_mem (Rng "a" "z") c || is_upper c || is_digit c.

(** [string.punctuation] *)
Definition punctuation (c : ascii) : bool :=
  existsb (Ascii.eqb c) (str "!#$%&'()*+,-./:;<=>?@[\]^_`{|}~") || Ascii.eqb c "034".

(** The characters that both branches of [normalize] reduce to nothing:
    the separators and the underscore. *)
Definition collapsible (c : ascii) : bool := separator c || Ascii.eqb c "_".

(** The character sets [^a-zA-Z0-9_.] and [^a-zA-Z] of METRIC_REPLACEMENT,
    and [A-Z] of the letter-boundary patterns. *)
Definition non_word : cset :=
  NoneOf [Rng "a" "z"; Rng "A" "Z"; Rng "0" "9"; Chr "_"; Chr "."].
Definition non_letter : cset := NoneOf [Rng "a" "z"; Rng "A" "Z"].
Definition upper : cset := OneOf [Rng "A" "Z"].

Definition no_upper (s : bytes) : Prop := Forall (fun c => is_upper c = false) s.
Definition digits (s : bytes) : Prop := Forall (fun c => is_digit c = true) s.

(** ** Further properties of names *)

(** The characters [a-z0-9_.], and the lowercase letters. *)
Definition lower_word (c : ascii) : bool :=
  cset_mem (OneOf [Rng "a" "z"; Rng "0" "9"; Chr "_"; Chr "."]) c.
Definition is_lower (c : ascii) : bool := citem_mem (Rng "a" "z") c.

(** The characters of a name other than separators and underscores. *)
Definition letters_of (s : bytes) : bytes :=
  List.filter (fun c => negb (collapsible c)) s.

(** Where r'_*\._*' matches: the underscores at the head of [s] are followed
    by a dot. *)
Definition dot_run (s : bytes) : bool := startswith ["."] (drop (span us s) s).

(** * The check object: exceptions, state, tags, metrics, events, run

    Python values are seen through what the methods do with them.  The
    methods run in a state monad with exceptions: the state holds the list
    objects (by reference), the records of [self.log], the deprecation flags
    and the calls received by the aggregator binding. *)

Module AgentCheck.

(** ** Exceptions *)

Inductive exc_class :=
| KeyboardInterrupt | SystemExit      (* derived from BaseException only *)
| UnicodeError                        (* with UnicodeEncodeError, UnicodeDecodeError *)
| ValueError | TypeError | IndexError | KeyError | NotImplementedError
| OtherException.                     (* any other class derived from Exception *)

(** [issubclass(c, Exception)] *)
Definition is_Exception (c : exc_class) : bool :=
  match c with
  | KeyboardInterrupt | SystemExit => false
  | _ => true
  end.

(** [issubclass(c, UnicodeError)] *)
Definition is_UnicodeError (c : exc_class) : bool :=
  match c with
  | UnicodeError => true
  | _ => false
  end.

(** An exception object: its class, what [str(e)] does (a message, or
    another exception raised by the conversion) and the text that
    [traceback.format_exc()] gives while it is handled. *)
#[local] Unset Elimination Schemes.
Inductive exc :=
| Exc (cls : exc_class) (to_str : bytes + exc) (format_exc : bytes).
#[local] Set Elimination Schemes.

Definition cls (e : exc) : exc_class := let 'Exc c _ _ := e in c.
Definition to_str (e : exc) : bytes + exc := let 'Exc _ s _ := e in s.
Definition format_exc (e : exc) : bytes := let 'Exc _ _ t := e in t.

Inductive outcome (A : Type) :=
| Ret (a : A)
| Raise (e : exc).
Arguments Ret {A} a.
Arguments Raise {A} e.

(** ** Values *)

Definition loc := nat.

(** An element of a tag list. *)
Inductive tag :=
| TStr (b : bytes)                    (* a str *)
| TUnicode (u : list N)               (* a unicode object *)
| TObj (str_tag : outcome bytes).     (* not a basestring, seen through str(tag) *)

(** A scalar field of an event. *)
Inductive value :=
| VNone
| VInt (z : Z)
| VStr (b : bytes)
| VUnicode (u : list N) (encode_utf8 : outcome bytes).
                                      (* a unicode object, seen through
                                         value.encode('utf-8') *)

(** [bool(v)] *)
Definition truthy (v : value) : bool :=
  match v with
  | VNone => false
  | VInt z => negb (z =? 0)%Z
  | VStr b => negb (bool_decide (b = []))
  | VUnicode u _ => negb (bool_decide (u = []))
  end.

(** An event mapping: the entry 'tags', when present, is a list object; the
    other entries are scalars. *)
Record event_dict := Event {
  ev_tags : option loc;
  ev_fields : gmap string value
}.

Inductive mtype :=
| GAUGE | COUNT | MONOTONIC_COUNT | RATE | HISTOGRAM | HISTORATE | COUNTER.

(** A call received by the aggregator binding; a tag list is recorded with
    the content it has at the call. *)
Inductive call :=
| submit_metric (check_id : option bytes) (mt : mtype) (name : bytes)
    (value : SpecFloat.spec_float) (tags : list tag) (hostname : bytes)
| submit_event (check_id : option bytes) (tags : option (list tag))
    (fields : gmap string value).

#[local] Unset Elimination Schemes.
Inductive json :=
| JStr (b : bytes)
| JList (l : list json)
| JDict (d : gmap string json).
#[local] Set Elimination Schemes.

(** ** State *)

Record state := State {
  heap : gmap loc (list tag);              (* the list objects *)
  log_warning : list bytes;                (* self.log.warning(...) *)
  _deprecations : gmap string (bool * bytes);
  check_id : option bytes;
  aggregator : list call                   (* calls to the binding, oldest first *)
}.

Definition set_heap (h : gmap loc (list tag)) (st : state) : state :=
  State h (log_warning st) (_deprecations st) (check_id st) (aggregator st).
Definition set_log (l : list bytes) (st : state) : state :=
  State (heap st) l (_deprecations st) (check_id st) (aggregator st).
Definition set_deprecations (d : gmap string (bool * bytes)) (st : state) : state :=
  State (heap st) (log_warning st) d (check_id st) (aggregator st).
Definition set_aggregator (a : list call) (st : state) : state :=
  State (heap st) (log_warning st) (_deprecations st) (check_id st) a.

Definition M (A : Type) : Type := state -> outcome A * state.

#[export] Instance M_ret : MRet M := fun A a st => (Ret a, st).
#[export] Instance M_bind : MBind M := fun A B f m st =>
  match m st with
  | (Ret a, st') => f a st'
  | (Raise e, st') => (Raise e, st')
  end.

Definition raise {A} (e : exc) : M A := fun st => (Raise e, st).
Definition lift {A} (o : outcome A) : M A := fun st => (o, st).

(** try: body / except <class>: handler *)
Definition try_except {A} (body : M A) (caught : exc_class -> bool)
    (handler : exc -> M A) : M A := fun st =>
  match body st with
  | (Raise e, st') => if caught (cls e) then handler e st' else (Raise e, st')
  | r => r
  end.

Definition warning (msg : bytes) : M unit := fun st =>
  (Ret tt, set_log (log_warning st ++ [msg]) st).

(** A new list object. *)
Definition new_list (ts : list tag) : M loc := fun st =>
  let l := fresh (dom (heap st)) in
  (Ret l, set_heap (<[l := ts]> (heap st)) st).

Definition read_list (l : loc) : M (list tag) := fun st =>
  (Ret (default [] (heap st !! l)), st).

(** A call of the aggregator binding, which receives [self.check_id]. *)
Definition call_aggregator (c : option bytes -> call) : M unit := fun st =>
  (Ret tt, set_aggregator (aggregator st ++ [c (check_id st)]) st).

(** l.append(t) *)
Definition append (l : loc) (t : tag) : M unit := fun st =>
  (Ret tt, set_heap (<[l := default [] (heap st !! l) ++ [t]]> (heap st)) st).

(** ** Tags *)

Definition deprecation_increment : bytes :=
  str "DEPRECATION NOTICE: `AgentCheck.increment`/`AgentCheck.decrement` are deprecated, please use `AgentCheck.gauge` or `AgentCheck.count` instead, with a different metric name".
Definition deprecation_device_name : bytes :=
  str "DEPRECATION NOTICE: `device_name` is deprecated, please use a `device:` tag in the `tags` list instead".
Definition deprecation_in_developer_mode : bytes :=
  str "DEPRECATION NOTICE: `in_developer_mode` is deprecated, please stop using it.".

(** [self._deprecations] as [__init__] leaves it. *)
Definition initial_deprecations : gmap string (bool * bytes) :=
  {[ "increment"%string := (false, deprecation_increment);
     "device_name"%string := (false, deprecation_device_name);
     "in_developer_mode"%string := (false, deprecation_in_developer_mode) ]}.

(** [repr(s)] of a str: between single quotes, or double quotes when the
    str holds a single quote and no double quote; the quote and the
    backslash escaped, tab, newline and carriage return as \t, \n, \r, and
    the other bytes outside the printable ASCII range as \xNN. *)
Definition hex_digit (n : N) : ascii :=
  nth (N.to_nat n) (str "0123456789abcdef") "0"%char.

Definition repr_char (quote c : ascii) : bytes :=
  if Ascii.eqb c quote || Ascii.eqb c "092" then ["092"%char; c]
  else if Ascii.eqb c "009" then ["092"%char; "t"%char]
  else if Ascii.eqb c "010" then ["092"%char; "n"%char]
  else if Ascii.eqb c "013" then ["092"%char; "r"%char]
  else if (Re.code c <? 32)%N || (127 <=? Re.code c)%N then
    ["092"%char; "x"%char; hex_digit (Re.code c / 16); hex_digit (Re.code c mod 16)]
  else [c].

Definition repr (s : bytes) : bytes :=
  let quote :=
    if existsb (Ascii.eqb "'") s && negb (existsb (Ascii.eqb "034") s)
    then "034"%char else "'"%char in
  quote :: flat_map (repr_char quote) s ++ [quote].

(** The KeyError of [self._deprecations[deprecation_key]]: [str(e)] is the
    repr of the key. *)
Definition key_error (deprecation_key : string) : exc :=
  Exc KeyError (inl (repr (str deprecation_key))) [].

(** Logs a deprecation notice at most once per AgentCheck instance. *)
Definition _log_deprecation (deprecation_key : string) : M unit := fun st =>
  match _deprecations st !! deprecation_key with
  | None => (Raise (key_error deprecation_key), st)
  | Some (true, _) => (Ret tt, st)
  | Some (false, msg) =>
      (Ret tt,
       set_deprecations (<[deprecation_key := (true, msg)]> (_deprecations st))
         (set_log (log_warning st ++ [msg]) st))
  end.

Definition tag_str_warning : bytes :=
  str "Error converting tag to string, ignoring tag".
Definition tag_unicode_warning : bytes :=
  str "Error encoding unicode tag to utf-8 encoded string, ignoring tag".

Section Methods.

(** [ensure_bytes] of utils.common, which the loop applies to the tags that
    are instances of basestring. *)
Variable ensure_bytes : tag -> outcome bytes.

(** The body of the loop of [_normalize_tags_type]: the tag to append, or
    [None] after [continue]. *)
Definition normalize_tag (t : tag) : M (option tag) :=
  match t with
  | TObj str_tag =>
      (* not isinstance(tag, basestring) *)
      try_except
        (b ← lift str_tag; mret (Some (TStr b)))
        is_Exception
        (fun _ => warning tag_str_warning;; mret None)
  | _ =>
      try_except
        (b ← lift (ensure_bytes t); mret (Some (TStr b)))
        is_UnicodeError
        (fun _ => warning tag_unicode_warning;; mret None)
  end.

(** for tag in tags: ... normalized_tags.append(tag) *)
Fixpoint normalize_loop (tags : list tag) (normalized_tags : loc) : M unit :=
  match tags with
  | [] => mret tt
  | t :: rest =>
      r ← normalize_tag t;
      match r with
      | Some t' => append normalized_tags t'
      | None => mret tt
      end;;
      normalize_loop rest normalized_tags
  end.

(** Normalize all the tags to strings; returns a new list.  The list object
    is read when the loop starts: the body writes to [normalized_tags]
    only. *)
Definition _normalize_tags_type (tags : option loc) : M loc :=
  normalized_tags ← new_list [];
  match tags with
  | Some l => ts ← read_list l; normalize_loop ts normalized_tags
  | None => mret tt
  end;;
  mret normalized_tags.

(** What the loop of [_normalize_tags_type] does with one tag, read off the
    tag: the string it appends, the warning it logs, and whether the
    conversion raises an exception that no handler of the loop catches. *)
Definition coerced (t : tag) : option bytes :=
  match t with
  | TObj (Ret b) => Some b
  | TObj (Raise _) => None
  | _ => match ensure_bytes t with Ret b => Some b | Raise _ => None end
  end.

Definition tag_warning (t : tag) : list bytes :=
  match t with
  | TObj (Ret _) => []
  | TObj (Raise _) => [tag_str_warning]
  | _ => match ensure_bytes t with Ret _ => [] | Raise _ => [tag_unicode_warning] end
  end.

Definition propagates (t : tag) : bool :=
  match t with
  | TObj (Ret _) => false
  | TObj (Raise e) => negb (is_Exception (cls e))
  | _ =>
      match ensure_bytes t with
      | Ret _ => false
      | Raise e => negb (is_UnicodeError (cls e))
      end
  end.

(** [device_name] is None or a str. *)
Definition _normalize_tags (tags : option loc) (device_name : option bytes)
    : M loc :=
  normalized_tags ←
    match tags with
    | None => new_list []
    | Some l => ts ← read_list l; new_list ts
    end;
  match device_name with
  | Some (c :: d) =>
      _log_deprecation "device_name";;
      append normalized_tags (TStr (str "device:" ++ c :: d))
  | _ => mret tt
  end;;
  _normalize_tags_type (Some normalized_tags).

(** ** Metrics

    The sample is None, or an object seen through [float(value)]. *)
Definition _submit_metric (mt : mtype) (name : bytes)
    (value : option (outcome SpecFloat.spec_float)) (tags : option loc)
    (hostname : option bytes) (device_name : option bytes) : M unit :=
  match value with
  | None => mret tt   (* ignore metric sample *)
  | Some v =>
      tags ← _normalize_tags tags device_name;
      let hostname := default [] hostname in
      x ← lift v;
      ts ← read_list tags;
      call_aggregator (fun check_id => submit_metric check_id mt name x ts hostname)
  end.

Definition gauge name value tags hostname device_name : M unit :=
  _submit_metric GAUGE name value tags hostname device_name.
Definition count name value tags hostname device_name : M unit :=
  _submit_metric COUNT name value tags hostname device_name.
Definition monotonic_count name value tags hostname device_name : M unit :=
  _submit_metric MONOTONIC_COUNT name value tags hostname device_name.
Definition rate name value tags hostname device_name : M unit :=
  _submit_metric RATE name value tags hostname device_name.
Definition histogram name value tags hostname device_name : M unit :=
  _submit_metric HISTOGRAM name value tags hostname device_name.
Definition historate name value tags hostname device_name : M unit :=
  _submit_metric HISTORATE name value tags hostname device_name.
Definition increment name value tags hostname device_name : M unit :=
  _log_deprecation "increment";;
  _submit_metric COUNTER name value tags hostname device_name.
Definition decrement name value tags hostname device_name : M unit :=
  _log_deprecation "increment";;
  _submit_metric COUNTER name value tags hostname device_name.

(** ** Events *)

Definition event_encoding_warning (key : string) : bytes :=
  str "Error encoding unicode field '" ++ str key ++
  str "' to utf-8 encoded string, can't submit event".

(** A scalar whose encoding to utf-8 raises a UnicodeError. *)
Definition unencodable (v : value) : bool :=
  match v with
  | VUnicode _ (Raise e) => is_UnicodeError (cls e)
  | _ => false
  end.

(** [int(v)] and [str(v)] of the interpreter on a scalar. *)
Variable py_int : value -> outcome Z.
Variable py_str : value -> outcome bytes.

(** The loop over [event.items()]: the mapping as the loop leaves it, and
    whether the method goes on ([false] after [return]). *)
Fixpoint encode_fields (items : list (string * value))
    (fields : gmap string value) : M (gmap string value * bool) :=
  match items with
  | [] => mret (fields, true)
  | (key, v) :: rest =>
      match v with
      | VUnicode _ encode_utf8 =>
          (* isinstance(value, unicode) *)
          r ← try_except
                (b ← lift encode_utf8; mret (Some b))
                is_UnicodeError
                (fun _ => warning (event_encoding_warning key);; mret None);
          match r with
          | Some b => encode_fields rest (<[key := VStr b]> fields)
          | None => mret (fields, false)
          end
      | _ => encode_fields rest fields
      end
  end.

Definition get_truthy (fields : gmap string value) (key : string)
    : option value :=
  match fields !! key with
  | Some v => if truthy v then Some v else None
  | None => None
  end.

Definition event (ev : event_dict) : M event_dict :=
  '(fields, continue) ← encode_fields (map_to_list (ev_fields ev)) (ev_fields ev);
  if negb continue then mret (Event (ev_tags ev) fields)
  else
    tags ←
      match ev_tags ev with
      | Some l =>
          ts ← read_list l;
          match ts with
          | [] => mret (Some l)
          | _ => l' ← _normalize_tags_type (Some l); mret (Some l')
          end
      | None => mret None
      end;
    fields ←
      match get_truthy fields "timestamp" with
      | Some v => z ← lift (py_int v); mret (<["timestamp"%string := VInt z]> fields)
      | None => mret fields
      end;
    fields ←
      match get_truthy fields "aggregation_key" with
      | Some v =>
          b ← lift (py_str v);
          mret (<["aggregation_key"%string := VStr b]> fields)
      | None => mret fields
      end;
    contents ←
      match tags with
      | Some l => ts ← read_list l; mret (Some ts)
      | None => mret None
      end;
    call_aggregator (fun check_id => submit_event check_id contents fields);;
    mret (Event tags fields).

(** ** run *)

(** An instance of the configuration, the [check] method of the subclass,
    [copy.deepcopy] and [json.dumps]. *)
Variable instance : Type.
Variable check : instance -> M unit.
Variable deepcopy : instance -> outcome instance.
Variable json_dumps : json -> outcome bytes.

(** The text that [traceback.format_exc()] gives for the IndexError of
    [self.instances[0]]; it names the file of the module. *)
Variable index_error_traceback : bytes.

Definition index_error : exc :=
  Exc IndexError (inl (str "list index out of range")) index_error_traceback.

(** [str(e)] *)
Definition str_exc (e : exc) : outcome bytes :=
  match to_str e with
  | inl msg => Ret msg
  | inr e' => Raise e'
  end.

Definition run (instances : list instance) : M bytes :=
  try_except
    (i ← match instances with
         | i :: _ => mret i
         | [] => raise index_error
         end;
     i ← lift (deepcopy i);
     check i;;
     mret [])
    is_Exception
    (fun e =>
       message ← lift (str_exc e);
       let traceback := format_exc e in
       lift (json_dumps
               (JList [JDict {[ "message"%string := JStr message;
                                "traceback"%string := JStr traceback ]}]))).

End Methods.

(** ** Concrete inputs used in the examples below *)

Definition unicode_error : exc :=
  Exc UnicodeError (inl (str "'utf8' codec can't encode character")) [].
Definition value_error : exc :=
  Exc ValueError (inl (str "no string form")) (str "Traceback (most recent call last): ...").
Definition keyboard_interrupt : exc := Exc KeyboardInterrupt (inl []) [].
Definition system_exit : exc := Exc SystemExit (inl (str "1")) [].
(** An exception whose message is a unicode object with a character outside
    ASCII: [str(e)] raises a UnicodeEncodeError. *)
Definition unicode_message_error : exc :=
  Exc OtherException (inr unicode_error) (str "Traceback (most recent call last): ...").

(** A check object right after [__init__], before any call. *)
Definition state0 : state := State ∅ [] initial_deprecations None [].

(** A tag list with one element whose [__str__] raises, and a state that
    holds it as the list object 0. *)
Definition tags0 : list tag :=
  [TStr (str "env:prod"); TObj (Raise value_error); TObj (Ret (str "42"))].
Definition state1 : state := State {[ 0 := tags0 ]} [] initial_deprecations None [].

(** The same list with an element whose [__str__] raises a
    KeyboardInterrupt, and a state that holds it as the list object 0. *)
Definition tags1 : list tag :=
  [TStr (str "env:prod"); TObj (Raise keyboard_interrupt); TObj (Ret (str "42"))].
Definition state2 : state := State {[ 0 := tags1 ]} [] initial_deprecations None [].

(** An [ensure_bytes] that returns a str as it is. *)
Definition ensure_bytes0 (t : tag) : outcome bytes :=
  match t with
  | TStr b => Ret b
  | _ => Raise unicode_error
  end.

(** A serializer for the payload of [run], without quoting. *)
Definition json_dumps0 (j : json) : outcome bytes :=
  match j with
  | JList [JDict d] =>
      match d !! "message"%string, d !! "traceback"%string with
      | Some (JStr m), Some (JStr t) =>
          Ret (str "[{message: " ++ m ++ str ", traceback: " ++ t ++ str "}]")
      | _, _ => Raise value_error
      end
  | _ => Raise value_error
  end.

(** An event whose title cannot be encoded. *)
Definition event0 : event_dict :=
  Event None {[ "msg_title"%string := VUnicode [233%N] (Raise unicode_error);
                "msg_text"%string := VStr (str "disk full") ]}.

(** ** warning and get_warnings

    The check object with [self.warnings] beside the state above. *)
Record check_object := CheckObject {
  self_state : state;
  warnings : list bytes
}.

Module Info.

(** [warning_message] is seen through [str(warning_message)]. *)
Definition warning (warning_message : outcome bytes) (self : check_object)
    : outcome unit * check_object :=
  match warning_message with
  | Raise e => (Raise e, self)
  | Ret m =>
      (Ret tt,
       CheckObject (set_log (log_warning (self_state self) ++ [m]) (self_state self))
         (warnings self ++ [m]))
  end.

(** Return the list of warnings messages to be displayed in the info page. *)
Definition get_warnings (self : check_object) : list bytes * check_object :=
  (warnings self, CheckObject (self_state self) []).

End Info.

(** ** _get_requests_proxy

    A proxy mapping holds None, a url or a list of hosts under each key. *)
Inductive proxy_value :=
| PNone
| PUrl (b : bytes)
| PHosts (l : list bytes).

Definition no_proxy_settings : gmap string proxy_value :=
  {[ "http"%string := PNone; "https"%string := PNone; "no"%string := PHosts [] ]}.

(** [agentConfig_proxy] is the entry 'proxy' of [self.agentConfig] when it
    has one (None or a mapping), [get_config_proxy] what
    [datadog_agent.get_config('proxy')] returns.  A mapping is true when it
    is not empty. *)
Definition _get_requests_proxy
    (agentConfig_proxy : option (option (gmap string proxy_value)))
    (get_config_proxy : option (gmap string proxy_value))
    : gmap string proxy_value :=
  let proxies :=
    match agentConfig_proxy with
    | Some p => p
    | None => get_config_proxy
    end in
  match proxies with
  | Some d =>
      if bool_decide (d = ∅) then no_proxy_settings
      else
        (* proxies = proxies.copy() *)
        match d !! "no_proxy"%string with
        | Some v => <["no"%string := v]> (delete "no_proxy"%string d)
        | None => d
        end
  | None => no_proxy_settings
  end.

(** ** Further descriptions used in the statements below *)

(** The content of the [tags] argument, and the tag that [_normalize_tags]
    appends for a [device_name]. *)
Definition tags_content (st : state) (tags : option loc) : list tag :=
  match tags with
  | Some l => default [] (heap st !! l)
  | None => []
  end.

Definition device_tags (device_name : option bytes) : list tag :=
  match device_name with
  | Some (c :: d) => [TStr (str "device:" ++ c :: d)]
  | _ => []
  end.

(** The field that the loop of [event] leaves for a field whose encoding
    returns. *)
Definition encoded (v : value) : value :=
  match v with
  | VUnicode _ (Ret b) => VStr b
  | _ => v
  end.

Definition encodable (v : value) : bool :=
  match v with
  | VUnicode _ (Raise _) => false
  | _ => true
  end.

Definition is_str (t : tag) : bool :=
  match t with
  | TStr _ => true
  | _ => false
  end.

(** What a method that works on lists of its own leaves as it was: the list
    objects that existed, [check_id], and the calls that the aggregator has
    received. *)
Definition preserved (st st' : state) : Prop :=
  (forall l0, is_Some (heap st !! l0) -> heap st' !! l0 = heap st !! l0) /\
  check_id st' = check_id st /\
  aggregator st' = aggregator st.

(** An event whose title is a unicode object that encodes, with a timestamp
    given as a str and the list object 0 for its tags. *)
Definition event1 : event_dict :=
  Event (Some 0)
    {[ "msg_title"%string := VUnicode [233%N] (Ret ["195"%char; "169"%char]);
       "timestamp"%string := VStr (str "1500000000") ]}.

(** [AgentCheck.check], which a subclass overrides. *)
Definition check_not_implemented {instance : Type} (_ : instance) : M unit :=
  raise (Exc NotImplementedError (inl []) []).

End AgentCheck.

(** * Facts about the matcher and [Re.sub] *)

Module ReFacts.

#[local] Arguments Ascii.eqb : simpl never.
#[local] Arguments cset_mem : simpl never.
#[local] Arguments Nat.sub : simpl never.

Lemma greedy_cont {A} cs s : forall bos (k : bool -> bytes -> option A) x,
  greedy cs bos s k = Some x ->
  exists b s', k b s' = Some x /\ length s' <= length s.
Proof.
  induction s as [|c t IH]; intros bos k x H; simpl in H.
  - eauto.
  - destruct (cset_mem cs c).
    + destruct (greedy cs false t k) eqn:E.
      * inversion H; subst. apply IH in E as (b & s' & Hk & Hl).
        exists b, s'. simpl. split; [done | lia].
      * eauto.
    + eauto.
Qed.

(** A successful match went through its continuation, after at least
    [min_len r] characters. *)
Lemma rmatch_cont {A} r : forall bos s g (k : bool -> bytes -> groups -> option A) x,
  rmatch r bos s g k = Some x ->
  exists b s' g', k b s' g' = Some x /\ length s' + min_len r <= length s.
Proof.
  induction r as [cs| | |r1 IH1 r2 IH2|r1 IH1 r2 IH2|cs|cs|i r IH];
    intros bos s g k x H; simpl in H.
  - destruct s as [|c t]; [done|]. destruct (cset_mem cs c); [|done].
    exists false, t, g. simpl. split; [done | lia].
  - destruct bos; [|done]. exists true, s, g. simpl. split; [done | lia].
  - destruct (at_eol s); [|done]. exists bos, s, g. simpl. split; [done | lia].
  - apply IH1 in H as (b & s1 & g1 & H & L1).
    apply IH2 in H as (b' & s2 & g2 & H & L2).
    exists b', s2, g2. simpl. split; [done | lia].
  - destruct (rmatch r1 bos s g k) eqn:E.
    + inversion H; subst. apply IH1 in E as (b & s1 & g1 & E & L).
      exists b, s1, g1. simpl. split; [done | lia].
    + apply IH2 in H as (b & s1 & g1 & E' & L).
      exists b, s1, g1. simpl. split; [done | lia].
  - apply greedy_cont in H as (b & s' & H & L).
    exists b, s', g. simpl. split; [done | lia].
  - destruct s as [|c t]; [done|]. destruct (cset_mem cs c); [|done].
    apply greedy_cont in H as (b & s' & H & L).
    exists b, s', g. simpl. split; [done | lia].
  - apply IH in H as (b & s' & g' & H & L). eauto.
Qed.

Lemma match_at_len r bos s n g :
  match_at r bos s = Some (n, g) -> min_len r <= n <= length s.
Proof.
  unfold match_at. intros H.
  apply rmatch_cont in H as (b & s' & g' & H & L).
  inversion H; subst. lia.
Qed.

(** The longest run is tried first. *)
Lemma greedy_longest {A} cs s : forall bos (k : bool -> bytes -> option A) x,
  k (match span cs s with O => bos | S _ => false end) (drop (span cs s) s) = Some x ->
  greedy cs bos s k = Some x.
Proof.
  induction s as [|c t IH]; intros bos k x H; simpl in *; [done|].
  destruct (cset_mem cs c); [|done].
  rewrite (IH false k x); [done|]. simpl in H. by destruct (span cs t).
Qed.

Lemma greedy_none {A} cs s : forall bos (k : bool -> bytes -> option A),
  (forall b j, k b (drop j s) = None) -> greedy cs bos s k = None.
Proof.
  induction s as [|c t IH]; intros bos k H; simpl.
  - apply (H bos 0).
  - destruct (cset_mem cs c); [|apply (H bos 0)].
    rewrite IH; [apply (H bos 0)|]. intros b j. apply (H b (S j)).
Qed.

Lemma span_le cs s : span cs s <= length s.
Proof. induction s as [|c t IH]; simpl; [lia|]. destruct (cset_mem cs c); simpl; lia. Qed.

Lemma span_stop cs s : forall c t, drop (span cs s) s = c :: t -> cset_mem cs c = false.
Proof.
  induction s as [|d s IH]; intros c t; simpl; [done|].
  destruct (cset_mem cs d) eqn:E; simpl; [apply IH|]. by intros [= <- <-].
Qed.

Section Sub.

Variable r : regex.
Variable tpl : list titem.

Lemma sub_loop_skip n : forall s b a, S n <= length s ->
  sub_loop r tpl b a (S n) s = sub_loop r tpl false true 0 (drop (S n) s).
Proof.
  induction n as [|n IH]; intros [|c t] b a L; simpl in L; try lia.
  - done.
  - change (sub_loop r tpl b a (S (S n)) (c :: t)) with (sub_loop r tpl false true (S n) t).
    rewrite IH; [done | lia].
Qed.

(** One step of the scan. *)
Lemma sub_loop_step b a s :
  sub_loop r tpl b a 0 s =
  match match_at r b s with
  | Some (S n, g) => expand tpl g ++ sub_loop r tpl false true 0 (drop (S n) s)
  | Some (O, g) =>
      (if a then [] else expand tpl g) ++
      match s with
      | c :: t => c :: sub_loop r tpl false false 0 t
      | [] => []
      end
  | None =>
      match s with
      | c :: t => c :: sub_loop r tpl false false 0 t
      | [] => []
      end
  end.
Proof.
  destruct s as [|c t]; simpl.
  - destruct (match_at r b []) as [[[|n] g]|] eqn:E; try done.
    apply match_at_len in E. simpl in E. lia.
  - destruct (match_at r b (c :: t)) as [[[|n] g]|] eqn:E; try done.
    apply match_at_len in E. simpl in E.
    destruct n as [|n]; [done|]. rewrite sub_loop_skip; [done | lia].
Qed.

Hypothesis nonempty : 1 <= min_len r.

(** Induction over the scan of a pattern that matches no empty text. *)
Lemma sub_loop_ind (P : bool -> bytes -> bytes -> Prop) :
  (forall b, P b [] []) ->
  (forall b c t out, match_at r b (c :: t) = None ->
     P false t out -> P b (c :: t) (c :: out)) ->
  (forall b s n g out, match_at r b s = Some (S n, g) -> S n <= length s ->
     P false (drop (S n) s) out -> P b s (expand tpl g ++ out)) ->
  forall s b a, P b s (sub_loop r tpl b a 0 s).
Proof.
  intros Hnil Hcons Hmatch s.
  remember (length s) as m eqn:Hm. revert s Hm.
  induction m as [m IH] using lt_wf_ind. intros s Hm b a.
  rewrite sub_loop_step.
  destruct (match_at r b s) as [[[|n] g]|] eqn:E.
  - apply match_at_len in E. lia.
  - pose proof (match_at_len _ _ _ _ _ E) as L.
    apply (Hmatch b s n g); [done | lia |].
    apply (IH (length (drop (S n) s))); [|done]. rewrite length_drop. lia.
  - destruct s as [|c t]; [apply Hnil|].
    apply Hcons; [done|]. apply (IH (length t)); [|done]. simpl in Hm. lia.
Qed.

(** Where the pattern matches nowhere, the subject is returned as it is. *)
Lemma sub_loop_nomatch (Q : bytes -> Prop) :
  (forall c t, Q (c :: t) -> Q t) ->
  (forall t, Q t -> match_at r false t = None) ->
  forall s b a, Q s -> match_at r b s = None -> sub_loop r tpl b a 0 s = s.
Proof.
  intros Htl Hno s. induction s as [|c t IH]; intros b a HQ Hb.
  - rewrite sub_loop_step, Hb; done.
  - rewrite sub_loop_step, Hb. f_equal. apply IH; [by eapply Htl|].
    apply Hno. by eapply Htl.
Qed.

End Sub.

(** ** What the patterns of the cleanup match *)

Lemma cset_mem_one c x : cset_mem (OneOf [Chr c]) x = Ascii.eqb x c.
Proof. unfold cset_mem. simpl. apply orb_false_r. Qed.

Lemma len_sub1 n : S n - n = 1.
Proof. lia. Qed.

Lemma len_sub2 n : S (S n) - n = 2.
Proof. lia. Qed.

Lemma match_class cs bos s :
  match_at (Cls cs) bos s =
  match s with
  | c :: _ => if cset_mem cs c then Some (1, []) else None
  | [] => None
  end.
Proof.
  destruct s as [|c t]; [done|]. unfold match_at. simpl rmatch.
  rewrite len_sub1. done.
Qed.

Lemma match_pair a b bos s :
  match_at (Cat (Lit1 a) (Lit1 b)) bos s =
  match s with
  | c :: d :: _ => if Ascii.eqb c a && Ascii.eqb d b then Some (2, []) else None
  | _ => None
  end.
Proof.
  destruct s as [|c [|d t]]; unfold match_at; simpl rmatch; rewrite ?cset_mem_one.
  - done.
  - by destruct (Ascii.eqb c a).
  - rewrite len_sub2. by destruct (Ascii.eqb c a), (Ascii.eqb d b).
Qed.

Lemma match_leading x bos s :
  match_at (Cat Bol (Lit1 x)) bos s =
  match s with
  | c :: _ => if bos && Ascii.eqb c x then Some (1, []) else None
  | [] => None
  end.
Proof.
  destruct s as [|c t]; unfold match_at; simpl rmatch; rewrite ?cset_mem_one.
  - by destruct bos.
  - rewrite len_sub1. by destruct bos.
Qed.

Lemma match_trailing x bos s :
  match_at (Cat (Lit1 x) Eol) bos s =
  match s with
  | c :: t => if Ascii.eqb c x && at_eol t then Some (1, []) else None
  | [] => None
  end.
Proof.
  destruct s as [|c t]; unfold match_at; simpl rmatch; rewrite ?cset_mem_one; [done|].
  rewrite len_sub1. by destruct (Ascii.eqb c x).
Qed.

Lemma match_multiple x bos s :
  match_at (Cat (Lit1 x) (Plus (OneOf [Chr x]))) bos s =
  match s with
  | c :: d :: t =>
      if Ascii.eqb c x && Ascii.eqb d x
      then Some (2 + span (OneOf [Chr x]) t, []) else None
  | _ => None
  end.
Proof.
  destruct s as [|c [|d t]]; unfold match_at; simpl rmatch; rewrite ?cset_mem_one.
  - done.
  - by destruct (Ascii.eqb c x).
  - destruct (Ascii.eqb c x); [|done]. destruct (Ascii.eqb d x); [|done]. simpl.
    apply greedy_longest. f_equal. f_equal.
    rewrite length_drop. pose proof (span_le (OneOf [Chr x]) t). simpl. lia.
Qed.

Lemma sub_class cs x s : sub (Cls cs) [Lit [x]] s = replace_class cs x s.
Proof.
  unfold sub.
  apply (sub_loop_ind (Cls cs) [Lit [x]] (le_n 1)
           (fun _ s out => out = replace_class cs x s)).
  - done.
  - intros b c t out E ->. rewrite match_class in E. simpl.
    by destruct (cset_mem cs c).
  - intros b [|c t] n g out E L ->; rewrite match_class in E; [done|].
    destruct (cset_mem cs c) eqn:M; [|done]. inversion E; subst.
    simpl. by rewrite M.
Qed.

Lemma sub_pair a b x s :
  sub (Cat (Lit1 a) (Lit1 b)) [Lit [x]] s = replace_pair a b x s.
Proof.
  unfold sub.
  apply (sub_loop_ind (Cat (Lit1 a) (Lit1 b)) [Lit [x]] (le_S _ _ (le_n 1))
           (fun _ s out => out = replace_pair a b x s)).
  - done.
  - intros bos c t out E ->. rewrite match_pair in E.
    destruct t as [|d t']; [done|]. simpl.
    by destruct (Ascii.eqb c a && Ascii.eqb d b).
  - intros bos u n g out E L ->. rewrite match_pair in E.
    destruct u as [|c [|d t']]; try done.
    destruct (Ascii.eqb c a && Ascii.eqb d b) eqn:M; [|done].
    inversion E; subst. simpl. by rewrite M.
Qed.

Lemma squeeze_cons x c t :
  squeeze x (c :: t) =
  if Ascii.eqb c x && startswith [x] t then squeeze x t else c :: squeeze x t.
Proof. done. Qed.

Lemma startswith_one x s :
  startswith [x] s = match s with c :: _ => Ascii.eqb c x | [] => false end.
Proof. destruct s; simpl; [done|]. apply andb_true_r. Qed.

Lemma squeeze_run x t :
  squeeze x (x :: t) = x :: squeeze x (drop (span (OneOf [Chr x]) t) t).
Proof.
  induction t as [|d t IH]; rewrite squeeze_cons, startswith_one, Ascii.eqb_refl.
  - done.
  - simpl span. rewrite cset_mem_one. simpl andb.
    destruct (Ascii.eqb d x) eqn:E; [|done].
    apply Ascii.eqb_eq in E as ->. exact IH.
Qed.

Lemma sub_multiple x s :
  sub (Cat (Lit1 x) (Plus (OneOf [Chr x]))) [Lit [x]] s = squeeze x s.
Proof.
  unfold sub.
  apply (sub_loop_ind (Cat (Lit1 x) (Plus (OneOf [Chr x]))) [Lit [x]]
           (le_S _ _ (le_n 1)) (fun _ s out => out = squeeze x s)).
  - done.
  - intros bos c t out E ->. rewrite match_multiple in E.
    rewrite squeeze_cons, startswith_one. destruct t as [|d t'].
    + by rewrite andb_false_r.
    + by destruct (Ascii.eqb c x && Ascii.eqb d x).
  - intros bos u n g out E L ->. rewrite match_multiple in E.
    destruct u as [|c [|d t']]; try done.
    destruct (Ascii.eqb c x) eqn:Ec; [|done].
    destruct (Ascii.eqb d x) eqn:Ed; [|done].
    apply Ascii.eqb_eq in Ec as ->. apply Ascii.eqb_eq in Ed as ->.
    inversion E; subst. cbn [expand flat_map app drop]. rewrite <- squeeze_run.
    by rewrite (squeeze_cons x x (x :: t')), startswith_one, Ascii.eqb_refl.
Qed.

Lemma sub_leading x s : sub (Cat Bol (Lit1 x)) [Lit []] s = drop_leading x s.
Proof.
  assert (Hno : forall t a, sub_loop (Cat Bol (Lit1 x)) [Lit []] false a 0 t = t).
  { intros t a. apply (sub_loop_nomatch _ _ (fun _ => True)); [done| |done|].
    - intros u _. rewrite match_leading. by destruct u.
    - rewrite match_leading. by destruct t. }
  unfold sub. rewrite sub_loop_step, match_leading.
  destruct s as [|c t]; [done|]. simpl.
  destruct (Ascii.eqb c x); simpl; by rewrite Hno.
Qed.

Lemma drop_trailing_eol x t : x <> "010" -> at_eol t = true -> drop_trailing x t = t.
Proof.
  intros Hx. destruct t as [|c [|d t]]; try done. simpl. intros E.
  apply Ascii.eqb_eq in E as ->.
  destruct (Ascii.eqb_spec "010" x); [by subst|done].
Qed.

Lemma sub_trailing x s :
  x <> "010" -> sub (Cat (Lit1 x) Eol) [Lit []] s = drop_trailing x s.
Proof.
  intros Hx. unfold sub.
  apply (sub_loop_ind (Cat (Lit1 x) Eol) [Lit []] (le_n 1)
           (fun _ s out => out = drop_trailing x s)).
  - done.
  - intros bos c t out E ->. rewrite match_trailing in E. simpl.
    by destruct (Ascii.eqb c x && at_eol t).
  - intros bos [|c t] n g out E L ->; rewrite match_trailing in E; [done|].
    destruct (Ascii.eqb c x && at_eol t) eqn:M; [|done].
    inversion E; subst. simpl. rewrite M.
    apply andb_true_iff in M as [_ M]. by apply drop_trailing_eol.
Qed.

(** Properties of the closed forms *)

Lemma pair_ind (P : bytes -> Prop) :
  P [] -> (forall c, P [c]) ->
  (forall c d t, P t -> P (d :: t) -> P (c :: d :: t)) ->
  forall s, P s.
Proof.
  intros H0 H1 H2 s.
  assert (P s /\ forall c, P (c :: s)) as [H _]; [|done].
  induction s as [|d t [IH1 IH2]]; [done|]. split; [apply IH2|].
  intros c. by apply H2.
Qed.

Lemma contains_pair a b s :
  contains [a; b] s =
  match s with
  | c :: (d :: _) as t => (Ascii.eqb c a && Ascii.eqb d b) || contains [a; b] t
  | _ => false
  end.
Proof.
  destruct s as [|c [|d t]]; simpl; rewrite ?andb_false_r, ?andb_true_r; done.
Qed.

Lemma contains_tail p c t : contains p (c :: t) = false -> contains p t = false.
Proof. simpl. by intros [_ H]%orb_false_iff. Qed.

Lemma endswith_one x s :
  endswith [x] s = match last s with Some c => Ascii.eqb c x | None => false end.
Proof.
  unfold endswith. change (reverse [x]) with [x].
  rewrite startswith_one, <- head_reverse. by destruct (reverse s).
Qed.

(* squeeze *)
Lemma squeeze_head x s : head (squeeze x s) = head s.
Proof.
  induction s as [|c t IH]; [done|]. rewrite squeeze_cons, startswith_one.
  destruct t as [|d t]; [by rewrite andb_false_r|].
  destruct (Ascii.eqb_spec c x), (Ascii.eqb_spec d x); subst; simpl andb; cbn iota; try done.
Qed.

Lemma squeeze_nodouble x s : contains [x; x] (squeeze x s) = false.
Proof.
  induction s as [|c t IH]; [done|]. rewrite squeeze_cons, startswith_one.
  destruct (Ascii.eqb c x && _) eqn:E; [done|].
  rewrite contains_pair. pose proof (squeeze_head x t) as Hh.
  destruct (squeeze x t) as [|d u] eqn:Es; [done|]. rewrite IH, orb_false_r.
  destruct t as [|d' t']; [done|]. simpl in Hh. inversion Hh; subst. done.
Qed.

(* drop_leading *)
Lemma drop_leading_props x s :
  contains [x; x] s = false ->
  contains [x; x] (drop_leading x s) = false /\
  startswith [x] (drop_leading x s) = false.
Proof.
  intros H. destruct s as [|c t]; [done|]. unfold drop_leading.
  destruct (Ascii.eqb_spec c x) as [->|Hc].
  - split; [by eapply contains_tail|]. rewrite contains_pair in H.
    rewrite startswith_one. destruct t as [|d t]; [done|].
    apply orb_false_iff in H as [H _]. by rewrite Ascii.eqb_refl in H.
  - split; [done|]. rewrite startswith_one. by apply Ascii.eqb_neq.
Qed.

(* drop_trailing *)
Lemma drop_trailing_head x s :
  x <> "010" -> head (drop_trailing x s) = Some x -> head s = Some x.
Proof.
  intros Hx. destruct s as [|d t]; [done|]. simpl.
  destruct (Ascii.eqb_spec d x) as [->|Hd]; simpl; [done|]. done.
Qed.

Lemma drop_trailing_nodouble x s :
  x <> "010" -> contains [x; x] s = false ->
  contains [x; x] (drop_trailing x s) = false.
Proof.
  intros Hx. induction s as [|c t IH]; [done|]. intros H. simpl.
  destruct (Ascii.eqb c x && at_eol t) eqn:E; [by eapply contains_tail|].
  rewrite contains_pair.
  pose proof (drop_trailing_head x t Hx) as Hh.
  destruct (drop_trailing x t) as [|d u] eqn:Es; [done|].
  rewrite IH, orb_false_r; [|by eapply contains_tail].
  destruct (Ascii.eqb_spec c x) as [->|]; [|done].
  destruct (Ascii.eqb_spec d x) as [->|]; [|done].
  specialize (Hh eq_refl). destruct t as [|d' t']; [done|].
  simpl in Hh. inversion Hh; subst. rewrite contains_pair in H.
  by rewrite !Ascii.eqb_refl in H.
Qed.

Lemma drop_trailing_start x s :
  startswith [x] s = false -> startswith [x] (drop_trailing x s) = false.
Proof.
  rewrite !startswith_one. destruct s as [|c t]; [done|]. simpl.
  intros E. by rewrite !E.
Qed.

Lemma drop_trailing_end x s :
  x <> "010" -> contains [x; x] s = false ->
  endswith [x] (drop_trailing x s) = false.
Proof.
  intros Hx. rewrite endswith_one. induction s as [|c t IH]; [done|].
  intros H. simpl.
  destruct (Ascii.eqb c x && at_eol t) eqn:E.
  - apply andb_true_iff in E as [_ E].
    destruct t as [|d [|? ?]]; try done. simpl in *.
    apply Ascii.eqb_eq in E as ->. by apply Ascii.eqb_neq.
  - specialize (IH (contains_tail _ _ _ H)). rewrite last_cons.
    destruct (last (drop_trailing x t)) eqn:El; [done|].
    apply last_None in El. destruct (Ascii.eqb_spec c x) as [->|]; [|done].
    simpl in E. destruct t as [|d t']; [done|]. simpl in El.
    destruct (Ascii.eqb_spec d x) as [->|]; simpl in El.
    + rewrite contains_pair in H. by rewrite !Ascii.eqb_refl in H.
    + done.
Qed.

(* replace_pair *)
Lemma replace_pair_cons2 a b x c d t :
  replace_pair a b x (c :: d :: t) =
  if Ascii.eqb c a && Ascii.eqb d b then x :: replace_pair a b x t
  else c :: replace_pair a b x (d :: t).
Proof. done. Qed.

Lemma replace_pair_head a b x s :
  head (replace_pair a b x s) =
  match s with
  | c :: d :: _ => if Ascii.eqb c a && Ascii.eqb d b then Some x else Some c
  | _ => head s
  end.
Proof.
  destruct s as [|c [|d t]]; try done. rewrite replace_pair_cons2.
  by destruct (Ascii.eqb c a && Ascii.eqb d b).
Qed.

Lemma replace_pair_nil a b x s : replace_pair a b x s = [] -> s = [].
Proof.
  destruct s as [|c [|d t]]; try done. rewrite replace_pair_cons2.
  by destruct (Ascii.eqb c a && Ascii.eqb d b).
Qed.

Section DotUs.

Local Abbreviation D := (replace_pair "." "_" ".").

Lemma dot_us_head s : head (D s) = head s.
Proof.
  rewrite replace_pair_head. destruct s as [|c [|d t]]; try done.
  destruct (Ascii.eqb_spec c "."); subst; simpl; [by destruct (Ascii.eqb d "_") | done].
Qed.

Lemma dot_us_nodouble s :
  contains (str "__") s = false -> contains (str "__") (D s) = false.
Proof.
  change (str "__") with ["_"; "_"].
  induction s as [| |c d t IH1 IH2] using pair_ind; try done.
  intros H. rewrite replace_pair_cons2. 
  rewrite contains_pair in H. apply orb_false_iff in H as [H1 H2].
  destruct (Ascii.eqb c "." && Ascii.eqb d "_") eqn:E.
  - apply andb_true_iff in E as [->%Ascii.eqb_eq ->%Ascii.eqb_eq].
    rewrite contains_pair. pose proof (dot_us_head t) as Hh.
    destruct (D t) eqn:Et; [done|].
    rewrite IH1; [done | by eapply contains_tail].
  - rewrite contains_pair. pose proof (dot_us_head (d :: t)) as Hh.
    destruct (D (d :: t)) eqn:Et; [done|]. simpl in Hh. inversion Hh; subst.
    rewrite H1. by apply IH2.
Qed.

Lemma dot_us_gone s :
  contains (str "__") s = false -> contains (str "._") (D s) = false.
Proof.
  change (str "__") with ["_"; "_"]. change (str "._") with ["."; "_"].
  induction s as [| |c d t IH1 IH2] using pair_ind;
    [done | by rewrite (contains_pair "." "_") |].
  intros H. rewrite replace_pair_cons2. 
  rewrite contains_pair in H. apply orb_false_iff in H as [H1 H2].
  destruct (Ascii.eqb c "." && Ascii.eqb d "_") eqn:E.
  - apply andb_true_iff in E as [->%Ascii.eqb_eq ->%Ascii.eqb_eq].
    rewrite contains_pair. pose proof (dot_us_head t) as Hh.
    destruct (D t) as [|e u] eqn:Et; [done|].
    rewrite IH1, orb_false_r; [|by eapply contains_tail].
    destruct t as [|e' t']; [done|]. simpl in Hh. inversion Hh; subst.
    rewrite contains_pair in H2. apply orb_false_iff in H2 as [H2 _].
    rewrite Ascii.eqb_refl in H2. simpl in H2. by rewrite H2.
  - rewrite contains_pair. pose proof (dot_us_head (d :: t)) as Hh.
    destruct (D (d :: t)) eqn:Et; [done|]. simpl in Hh. inversion Hh; subst.
    rewrite E. by apply IH2.
Qed.

Lemma dot_us_start s : startswith (str "_") (D s) = startswith (str "_") s.
Proof.
  change (str "_") with ["_"]. rewrite !startswith_one.
  pose proof (dot_us_head s). by destruct (D s), s; simplify_eq/=.
Qed.

Lemma dot_us_end s :
  endswith (str "_") s = false -> endswith (str "_") (D s) = false.
Proof.
  change (str "_") with ["_"]. rewrite !endswith_one.
  induction s as [| |c d t IH1 IH2] using pair_ind; try done.
  rewrite replace_pair_cons2.  rewrite last_cons_cons.
  destruct (Ascii.eqb c "." && Ascii.eqb d "_") eqn:E.
  - apply andb_true_iff in E as [->%Ascii.eqb_eq ->%Ascii.eqb_eq].
    rewrite !last_cons. destruct (last t) eqn:El.
    + intros H. specialize (IH1 H). by destruct (last (D t)).
    + done.
  - intros H. specialize (IH2 H). rewrite last_cons.
    destruct (last (D (d :: t))) eqn:El; [done|].
    apply last_None in El. by apply replace_pair_nil in El.
Qed.

End DotUs.

Section UsDot.

Local Abbreviation E := (replace_pair "_" "." ".").

Lemma us_dot_head s : head (E s) = Some "_" -> head s = Some "_".
Proof.
  rewrite replace_pair_head. destruct s as [|c [|d t]]; try done.
  by destruct (Ascii.eqb c "_" && Ascii.eqb d ".").
Qed.

Lemma us_dot_head_dot s :
  head (E s) = Some "." -> head s = Some "." \/ startswith (str "_.") s = true.
Proof.
  rewrite replace_pair_head. destruct s as [|c [|d t]]; try (by left).
  simpl. rewrite andb_true_r.
  destruct (Ascii.eqb c "_" && Ascii.eqb d "."); [by right | by left].
Qed.

Lemma us_dot_last s : last (E s) = last s.
Proof.
  induction s as [| |c d t IH1 IH2] using pair_ind; try done.
  rewrite replace_pair_cons2.  rewrite last_cons_cons.
  destruct (Ascii.eqb c "_" && Ascii.eqb d ".") eqn:M.
  - apply andb_true_iff in M as [->%Ascii.eqb_eq ->%Ascii.eqb_eq].
    rewrite !last_cons, IH1. done.
  - rewrite last_cons, IH2. destruct (last (d :: t)) eqn:El; [done|].
    by apply last_None in El.
Qed.

Lemma us_dot_nodouble s :
  contains (str "__") s = false -> contains (str "__") (E s) = false.
Proof.
  change (str "__") with ["_"; "_"].
  induction s as [| |c d t IH1 IH2] using pair_ind; try done.
  intros H. rewrite replace_pair_cons2. 
  rewrite contains_pair in H. apply orb_false_iff in H as [H1 H2].
  destruct (Ascii.eqb c "_" && Ascii.eqb d ".") eqn:M.
  - rewrite contains_pair. destruct (E t) eqn:Et; [done|].
    rewrite IH1; [done | by eapply contains_tail].
  - rewrite contains_pair. pose proof (us_dot_head (d :: t)) as Hh.
    destruct (E (d :: t)) as [|e u] eqn:Et; [done|].
    rewrite IH2, orb_false_r; [|done].
    destruct (Ascii.eqb_spec c "_") as [->|]; [|done].
    destruct (Ascii.eqb_spec e "_") as [->|]; [|done].
    specialize (Hh eq_refl). simpl in Hh. inversion Hh; subst. done.
Qed.

Lemma us_dot_keeps s :
  contains (str "._") s = false -> contains (str "._") (E s) = false.
Proof.
  change (str "._") with ["."; "_"].
  induction s as [| |c d t IH1 IH2] using pair_ind; try done.
  intros H. rewrite replace_pair_cons2. 
  rewrite contains_pair in H. apply orb_false_iff in H as [H1 H2].
  destruct (Ascii.eqb c "_" && Ascii.eqb d ".") eqn:M.
  - apply andb_true_iff in M as [->%Ascii.eqb_eq ->%Ascii.eqb_eq].
    rewrite contains_pair. pose proof (us_dot_head t) as Hh.
    destruct (E t) as [|e u] eqn:Et; [done|].
    rewrite IH1, orb_false_r; [|by eapply contains_tail].
    destruct (Ascii.eqb_spec e "_") as [->|]; [|done].
    specialize (Hh eq_refl). destruct t as [|e' t']; [done|].
    simpl in Hh. inversion Hh; subst. rewrite contains_pair in H2. done.
  - rewrite contains_pair. pose proof (us_dot_head (d :: t)) as Hh.
    destruct (E (d :: t)) as [|e u] eqn:Et; [done|].
    rewrite IH2, orb_false_r; [|done].
    destruct (Ascii.eqb_spec c ".") as [->|]; [|done].
    destruct (Ascii.eqb_spec e "_") as [->|]; [|done].
    specialize (Hh eq_refl). simpl in Hh. inversion Hh; subst. done.
Qed.

Lemma us_dot_gone s :
  contains (str "__") s = false -> contains (str "_.") (E s) = false.
Proof.
  change (str "__") with ["_"; "_"]. change (str "_.") with ["_"; "."].
  induction s as [| |c d t IH1 IH2] using pair_ind;
    [done | by rewrite (contains_pair "_" ".") |].
  intros H. rewrite replace_pair_cons2. 
  rewrite contains_pair in H. apply orb_false_iff in H as [H1 H2].
  destruct (Ascii.eqb c "_" && Ascii.eqb d ".") eqn:M.
  - rewrite contains_pair. destruct (E t) as [|e u] eqn:Et; [done|].
    rewrite IH1; [done | by eapply contains_tail].
  - rewrite contains_pair. pose proof (us_dot_head_dot (d :: t)) as Hh.
    destruct (E (d :: t)) as [|e u] eqn:Et; [done|].
    rewrite IH2, orb_false_r; [|done].
    destruct (Ascii.eqb_spec c "_") as [->|]; [|done].
    destruct (Ascii.eqb_spec e ".") as [->|]; [|done].
    destruct (Hh eq_refl) as [Hd|Hd].
    + simpl in Hd. inversion Hd; subst. done.
    + simpl in Hd. apply andb_true_iff in Hd as [->%Ascii.eqb_eq _]. done.
Qed.

Lemma us_dot_start s :
  startswith (str "_") s = false -> startswith (str "_") (E s) = false.
Proof.
  change (str "_") with ["_"]. rewrite !startswith_one.
  pose proof (us_dot_head s) as Hh. destruct (E s) as [|e u]; [done|].
  destruct (Ascii.eqb_spec e "_") as [->|]; [|done].
  specialize (Hh eq_refl). destruct s; simplify_eq/=. by rewrite Ascii.eqb_refl.
Qed.

Lemma us_dot_end s : endswith (str "_") (E s) = endswith (str "_") s.
Proof. change (str "_") with ["_"]. by rewrite !endswith_one, us_dot_last. Qed.

End UsDot.

Lemma newline_not_us : "_" <> "010".
Proof. done. Qed.

Lemma cleanup_closed name :
  cleanup name =
  replace_pair "_" "." "."
    (replace_pair "." "_" "."
       (drop_trailing "_" (drop_leading "_" (squeeze "_" name)))).
Proof.
  unfold cleanup, MULTIPLE_US, LEADING_US, TRAILING_US, DOT_US, US_DOT, us.
  change (str "_") with ["_"]. change (str ".") with ["."].
  rewrite sub_multiple, sub_leading, (sub_trailing "_" _ newline_not_us).
  by rewrite !sub_pair.
Qed.

Lemma cleanup_well_formed name : well_formed (cleanup name).
Proof.
  rewrite cleanup_closed.
  pose proof (squeeze_nodouble "_" name) as H1.
  apply drop_leading_props in H1 as [H1 H2].
  pose proof (drop_trailing_nodouble "_" _ newline_not_us H1) as H3.
  pose proof (drop_trailing_start "_" _ H2) as H4.
  pose proof (drop_trailing_end "_" _ newline_not_us H1) as H5.
  set (s := drop_trailing "_" (drop_leading "_" (squeeze "_" name))) in *.
  pose proof (dot_us_nodouble s H3) as H6.
  pose proof (dot_us_gone s H3) as H7.
  pose proof (dot_us_end s H5) as H8.
  pose proof (dot_us_start s) as H9.
  set (d := replace_pair "." "_" "." s) in *.
  repeat split.
  - by apply us_dot_nodouble.
  - apply us_dot_start. fold d. by rewrite H9.
  - by rewrite us_dot_end.
  - by apply us_dot_keeps.
  - by apply us_dot_gone.
Qed.

(* identities *)
Lemma squeeze_id x s : contains [x; x] s = false -> squeeze x s = s.
Proof.
  induction s as [|c t IH]; [done|]. intros H.
  rewrite squeeze_cons, startswith_one, IH; [|by eapply contains_tail].
  rewrite contains_pair in H. destruct t as [|d t]; [by rewrite andb_false_r|].
  apply orb_false_iff in H as [-> _]. done.
Qed.

Lemma drop_leading_id x s : startswith [x] s = false -> drop_leading x s = s.
Proof. rewrite startswith_one. destruct s as [|c t]; [done|]. simpl. by intros ->. Qed.

Lemma drop_trailing_id x s :
  endswith [x] s = false -> Forall (fun c => c <> "010") s ->
  drop_trailing x s = s.
Proof.
  rewrite endswith_one. induction s as [|c t IH]; [done|].
  intros H Hn. apply Forall_cons in Hn as [Hc Hn]. simpl.
  destruct (Ascii.eqb c x && at_eol t) eqn:M.
  - apply andb_true_iff in M as [->%Ascii.eqb_eq M].
    destruct t as [|d [|? ?]]; try done.
    + simpl in H. by rewrite Ascii.eqb_refl in H.
    + simpl in M. apply Ascii.eqb_eq in M as ->.
      apply Forall_cons in Hn as [Hd _]. done.
  - f_equal. apply IH; [|done]. rewrite last_cons in H.
    by destruct (last t).
Qed.

Lemma replace_pair_id a b x s : contains [a; b] s = false -> replace_pair a b x s = s.
Proof.
  induction s as [|c t IH]; [done|]. intros H.
  destruct t as [|d t]; [done|]. rewrite replace_pair_cons2.
  rewrite contains_pair in H. apply orb_false_iff in H as [-> H].
  f_equal. by apply IH.
Qed.

Lemma replace_class_id cs x s :
  Forall (fun c => cset_mem cs c = false) s -> replace_class cs x s = s.
Proof.
  induction 1 as [|c t Hc _ IH]; [done|]. simpl. by rewrite Hc, IH.
Qed.

(* what the substitutions keep *)
Section Keep.
Variable P : ascii -> Prop.

Lemma squeeze_Forall x s : Forall P s -> Forall P (squeeze x s).
Proof.
  induction 1 as [|c t Hc _ IH]; [done|]. rewrite squeeze_cons.
  destruct (_ && _); [done | by constructor].
Qed.

Lemma drop_leading_Forall x s : Forall P s -> Forall P (drop_leading x s).
Proof.
  intros H. destruct H as [|c t Hc Ht]; [done|]. simpl.
  destruct (Ascii.eqb c x); [done | by constructor].
Qed.

Lemma drop_trailing_Forall x s : Forall P s -> Forall P (drop_trailing x s).
Proof.
  induction 1 as [|c t Hc Ht IH]; [done|]. simpl.
  destruct (_ && _); [done | by constructor].
Qed.

Lemma replace_pair_Forall a b x s : P x -> Forall P s -> Forall P (replace_pair a b x s).
Proof.
  intros Hx. induction s as [| |c d t IH1 IH2] using pair_ind; try done.
  intros H. rewrite replace_pair_cons2.
  apply Forall_cons in H as [Hc H]. pose proof H as [Hd Ht]%Forall_cons.
  destruct (_ && _); constructor; auto.
Qed.

Lemma cleanup_Forall s : P "." -> Forall P s -> Forall P (cleanup s).
Proof.
  intros Hd H. rewrite cleanup_closed.
  by apply replace_pair_Forall, replace_pair_Forall, drop_trailing_Forall,
    drop_leading_Forall, squeeze_Forall.
Qed.

End Keep.

Lemma cleanup_id s :
  well_formed s -> Forall (fun c => c <> "010") s -> cleanup s = s.
Proof.
  intros (H1 & H2 & H3 & H4 & H5) Hn. rewrite cleanup_closed.
  rewrite squeeze_id, drop_leading_id, drop_trailing_id; try done.
  by rewrite (replace_pair_id "." "_"), (replace_pair_id "_" ".").
Qed.

Lemma replace_class_Forall cs x s :
  cset_mem cs x = false ->
  Forall (fun c => cset_mem cs c = false) (replace_class cs x s).
Proof.
  intros Hx. induction s as [|c t IH]; simpl; constructor; [|done].
  by destruct (cset_mem cs c) eqn:E.
Qed.

End ReFacts.

Import ReFacts.

(** * normalize *)

Section NormalizeFacts.
Variable NFKD : list N -> list N.

Lemma separator_dot : separator "." = false.
Proof. done. Qed.

Lemma separator_newline c : separator c = false -> c <> "010".
Proof. by intros H ->. Qed.

Lemma normalize_no_prefix metric :
  normalize NFKD metric None false =
  cleanup (replace_class
             (OneOf [Chr ","; Chr "+"; Chr "*"; Chr "-"; Chr "/"; Chr "("; Chr ")";
                     Chr "["; Chr "]"; Chr "{"; Chr "}"; Space]) "_"
             match metric with
             | Unicode u => encode_ascii_ignore (NFKD u)
             | Str b => b
             end).
Proof. unfold normalize. cbn zeta iota. by rewrite <- sub_class. Qed.


(** C6: without [fix_case], normalizing a normalized name changes nothing. *)
Theorem normalize_idempotent metric :
  normalize NFKD (Str (normalize NFKD metric None false)) None false =
  normalize NFKD metric None false.
Proof.
  rewrite (normalize_no_prefix (Str _)), (normalize_no_prefix metric).
  cbn iota. set (m := match metric with Str b => b | Unicode u => _ end).
  set (x := replace_class _ _ m).
  assert (Hx : Forall (fun c => separator c = false) (cleanup x)).
  { apply cleanup_Forall; [done|]. by apply replace_class_Forall. }
  rewrite replace_class_id; [|exact Hx].
  apply cleanup_id; [apply cleanup_well_formed|].
  eapply Forall_impl; [exact Hx|]. apply separator_newline.
Qed.

End NormalizeFacts.

#[local] Arguments Ascii.eqb : simpl never.
#[local] Arguments cset_mem : simpl never.
#[local] Arguments Nat.sub : simpl never.

(** Facts on single characters, by enumeration of the 256 bytes. *)
Ltac by_bytes c :=
  destruct c as [[] [] [] [] [] [] [] []]; vm_compute;
  first [done | intros; by repeat split | intros; by left | intros; by right].

Lemma upper_mem c : cset_mem upper c = is_upper c.
Proof. unfold cset_mem, upper, is_upper. simpl. apply orb_false_r. Qed.

Lemma digit_not_upper c : is_digit c = true -> is_upper c = false.
Proof. by_bytes c. Qed.

Lemma digit_word c : is_digit c = true -> cset_mem non_word c = false.
Proof. by_bytes c. Qed.

Lemma digit_non_letter c : is_digit c = true -> cset_mem non_letter c = true.
Proof. by_bytes c. Qed.

Lemma digit_not_separator c : is_digit c = true -> separator c = false.
Proof. by_bytes c. Qed.

Lemma digit_plain c : is_digit c = true -> c <> "_" /\ c <> "." /\ c <> "010".
Proof. by_bytes c. Qed.

Lemma no_upper_tail c t : no_upper (c :: t) -> no_upper t.
Proof. by intros [_ H]%Forall_cons. Qed.

Lemma match_first_cap b t : no_upper t -> match_at FIRST_CAP_RE b t = None.
Proof.
  intros H. unfold match_at, FIRST_CAP_RE. simpl rmatch.
  destruct t as [|c [|d t']]; [done | by destruct (cset_mem Dot c) |].
  destruct (cset_mem Dot c); [|done].
  apply Forall_cons in H as [_ [Hd _]%Forall_cons].
  fold upper. by rewrite upper_mem, Hd.
Qed.

Lemma match_all_cap b t : no_upper t -> match_at ALL_CAP_RE b t = None.
Proof.
  intros H. unfold match_at, ALL_CAP_RE. simpl rmatch.
  destruct t as [|c [|d t']]; [done | by destruct (cset_mem _ c) |].
  destruct (cset_mem _ c); [|done].
  apply Forall_cons in H as [_ [Hd _]%Forall_cons].
  fold upper. by rewrite upper_mem, Hd.
Qed.

Lemma sub_first_cap_id tpl s : no_upper s -> sub FIRST_CAP_RE tpl s = s.
Proof.
  intros H. apply (sub_loop_nomatch _ _ no_upper);
    [apply no_upper_tail | intros; by apply match_first_cap | done
    | by apply match_first_cap].
Qed.

Lemma sub_all_cap_id tpl s : no_upper s -> sub ALL_CAP_RE tpl s = s.
Proof.
  intros H. apply (sub_loop_nomatch _ _ no_upper);
    [apply no_upper_tail | intros; by apply match_all_cap | done
    | by apply match_all_cap].
Qed.

Lemma lower_id s : no_upper s -> lower s = s.
Proof.
  induction 1 as [|c t Hc _ IH]; [done|]. unfold lower in *. simpl.
  rewrite IH. unfold lower_char. fold (is_upper c). by rewrite Hc.
Qed.

Lemma match_metric_non_word b c t :
  cset_mem non_word c = true -> match_at METRIC_REPLACEMENT b (c :: t) <> None.
Proof.
  intros H. unfold match_at, METRIC_REPLACEMENT. simpl rmatch.
  fold non_word. rewrite H.
  erewrite greedy_longest; [done | reflexivity].
Qed.

Lemma metric_nonempty : 1 <= min_len METRIC_REPLACEMENT.
Proof. simpl. lia. Qed.

Lemma match_dot_cleanup b t :
  Forall (fun c => c <> ".") t -> match_at DOT_UNDERSCORE_CLEANUP b t = None.
Proof.
  intros H. unfold match_at, DOT_UNDERSCORE_CLEANUP. simpl rmatch.
  apply greedy_none. intros b' j.
  pose proof (Forall_drop _ j _ H) as Hj.
  destruct (drop j t) as [|c u]; [done|].
  apply Forall_cons in Hj as [Hc _]. rewrite cset_mem_one.
  by destruct (Ascii.eqb_spec c ".").
Qed.

Lemma sub_dot_cleanup_id tpl s :
  Forall (fun c => c <> ".") s -> sub DOT_UNDERSCORE_CLEANUP tpl s = s.
Proof.
  intros H.
  apply (sub_loop_nomatch _ _ (Forall (fun c => c <> ".")));
    [by intros c t [_ ?]%Forall_cons | intros; by apply match_dot_cleanup | done
    | by apply match_dot_cleanup].
Qed.

Lemma lstrip_all x s : Forall (fun c => c = x) s -> lstrip x s = [].
Proof.
  induction 1 as [|c t -> _ IH]; [done|]. simpl. by rewrite Ascii.eqb_refl.
Qed.

Lemma strip_all x s : Forall (fun c => c = x) s -> strip x s = [].
Proof. intros H. unfold strip. by rewrite lstrip_all. Qed.

Lemma squeeze_all x s : Forall (fun c => c = x) s -> squeeze x s = take 1 s.
Proof.
  induction 1 as [|c t -> Ht IH]; [done|].
  rewrite squeeze_cons, startswith_one, Ascii.eqb_refl, IH.
  destruct Ht as [|d t' -> _]; [done|]. by rewrite Ascii.eqb_refl.
Qed.

Lemma cleanup_all_underscores s : Forall (fun c => c = "_") s -> cleanup s = [].
Proof.
  intros H. rewrite cleanup_closed, squeeze_all; [|done].
  destruct H as [|c t -> _]; done.
Qed.

Lemma replace_class_collapsible s :
  Forall (fun c => collapsible c = true) s ->
  Forall (fun c => c = "_")
    (replace_class
       (OneOf [Chr ","; Chr "+"; Chr "*"; Chr "-"; Chr "/"; Chr "("; Chr ")";
               Chr "["; Chr "]"; Chr "{"; Chr "}"; Space]) "_" s).
Proof.
  induction 1 as [|c t Hc _ IH]; [done|]. simpl. constructor; [|done].
  fold (separator c). unfold collapsible in Hc.
  destruct (separator c); [done|]. by apply Ascii.eqb_eq in Hc.
Qed.

Lemma digits_no_upper s : digits s -> no_upper s.
Proof. intros H. eapply Forall_impl; [exact H|]. apply digit_not_upper. Qed.

Lemma span_all cs s : Forall (fun c => cset_mem cs c = true) s -> span cs s = length s.
Proof. induction 1 as [|c t Hc _ IH]; [done|]. simpl. by rewrite Hc, IH. Qed.

Lemma match_metric_digits c t :
  digits (c :: t) ->
  exists g, match_at METRIC_REPLACEMENT true (c :: t) = Some (S (length t), g).
Proof.
  intros [Hc Ht]%Forall_cons. unfold match_at, METRIC_REPLACEMENT. simpl rmatch.
  fold non_word non_letter.
  rewrite (digit_word c Hc), (digit_non_letter c Hc).
  eexists. apply greedy_longest. rewrite span_all, drop_all.
  - simpl. rewrite Nat.sub_0_r. by destruct t.
  - eapply Forall_impl; [exact Ht|]. apply digit_non_letter.
Qed.

Lemma sub_metric_digits c t :
  digits (c :: t) -> sub METRIC_REPLACEMENT [Lit (str "_")] (c :: t) = str "_".
Proof.
  intros H. destruct (match_metric_digits c t H) as [g E].
  unfold sub. rewrite sub_loop_step, E. change (drop _ (c :: t)) with (drop (length t) t).
  rewrite drop_all, sub_loop_step. done.
Qed.

Section NormalizeCases.
Variable NFKD : list N -> list N.

(** C9: on a name made only of digits, FIRST_CAP_RE and ALL_CAP_RE match
    nowhere and leave the name as it is, as does [lower]; of the
    substitutions of [convert_to_underscore_separated] only the
    character-class one, METRIC_REPLACEMENT, applies. *)
Theorem digits_only_character_class s :
  digits s ->
  sub FIRST_CAP_RE [Ref 1; Lit (str "_"); Ref 2] s = s /\
  sub ALL_CAP_RE [Ref 1; Lit (str "_"); Ref 2] s = s /\
  lower s = s /\
  convert_to_underscore_separated s =
    strip "_" (sub METRIC_REPLACEMENT [Lit (str "_")] s) /\
  normalize NFKD (Str s) None true =
    strip "_" (sub METRIC_REPLACEMENT [Lit (str "_")] s).
Proof.
  intros H. pose proof (digits_no_upper s H) as Hu.
  assert (Hc : convert_to_underscore_separated s =
               strip "_" (sub METRIC_REPLACEMENT [Lit (str "_")] s)).
  { unfold convert_to_underscore_separated.
    rewrite sub_first_cap_id, sub_all_cap_id, lower_id; try done.
    destruct s as [|c t]; [done|]. by rewrite sub_metric_digits. }
  repeat split.
  - by apply sub_first_cap_id.
  - by apply sub_all_cap_id.
  - by apply lower_id.
  - done.
  - unfold normalize. cbn zeta iota. rewrite Hc.
    destruct s as [|c t]; [done|]. by rewrite sub_metric_digits.
Qed.

(** C7: with [fix_case] and a prefix, the prefix goes through
    [convert_to_underscore_separated] only, not through the cleanup, and the
    result is prefix + "." + name; normalize("FooBar", "prefix", True) is
    "prefix.foo_bar", and the double underscore of the prefix "a__b" stays. *)
Theorem normalize_prefix_fix_case metric prefix :
  normalize NFKD metric (Some prefix) true =
    convert_to_underscore_separated prefix ++ str "." ++
    normalize NFKD metric None true /\
  normalize NFKD (Str (str "FooBar")) (Some (str "prefix")) true =
    str "prefix.foo_bar" /\
  normalize NFKD (Str (str "FooBar")) (Some (str "a__b")) true =
    str "a__b.foo_bar".
Proof. split; [reflexivity | split; vm_compute; reflexivity]. Qed.

End NormalizeCases.

(** The theorem of C9 on the name "2048". *)
Lemma digits_only_character_class_witness :
  digits (str "2048") /\
  sub FIRST_CAP_RE [Ref 1; Lit (str "_"); Ref 2] (str "2048") = str "2048" /\
  sub ALL_CAP_RE [Ref 1; Lit (str "_"); Ref 2] (str "2048") = str "2048" /\
  lower (str "2048") = str "2048" /\
  convert_to_underscore_separated (str "2048") =
    strip "_" (sub METRIC_REPLACEMENT [Lit (str "_")] (str "2048")) /\
  normalize (fun u => u) (Str (str "2048")) None true =
    strip "_" (sub METRIC_REPLACEMENT [Lit (str "_")] (str "2048")).
Proof.
  assert (H : digits (str "2048")) by (repeat constructor).
  split; [exact H|].
  exact (digits_only_character_class (fun u => u) (str "2048") H).
Defined.


(** C8, as stated, fails: "!" stays "!" without [fix_case], and "!." gives
    "." with it. *)
Lemma normalize_punctuation_kept :
  Forall (fun c => punctuation c = true) (str "!") /\
  normalize (fun u => u) (Str (str "!")) None false = str "!" /\
  Forall (fun c => punctuation c = true) (str "!.") /\
  normalize (fun u => u) (Str (str "!.")) None true = str ".".
Proof. repeat split; by repeat constructor. Qed.

(** * More about normalize *)

(** ** What the cleanup deletes *)

Lemma filter_cons (p : ascii -> bool) c l :
  List.filter p (c :: l) = if p c then c :: List.filter p l else List.filter p l.
Proof. done. Qed.

Section Deletes.
Variable p : ascii -> bool.
Hypothesis p_us : p "_" = false.

Lemma squeeze_filter s : List.filter p (squeeze "_" s) = List.filter p s.
Proof.
  induction s as [|c t IH]; [done|]. rewrite squeeze_cons.
  destruct (Ascii.eqb c "_" && startswith ["_"] t) eqn:M.
  - apply andb_true_iff in M as [->%Ascii.eqb_eq _].
    by rewrite filter_cons, p_us.
  - by rewrite !filter_cons, IH.
Qed.

Lemma drop_leading_filter s : List.filter p (drop_leading "_" s) = List.filter p s.
Proof.
  destruct s as [|c t]; [done|]. unfold drop_leading.
  destruct (Ascii.eqb_spec c "_") as [->|]; [|done]. by rewrite filter_cons, p_us.
Qed.

Lemma drop_trailing_filter s : List.filter p (drop_trailing "_" s) = List.filter p s.
Proof.
  induction s as [|c t IH]; [done|]. cbn [drop_trailing].
  destruct (Ascii.eqb c "_" && at_eol t) eqn:M.
  - apply andb_true_iff in M as [->%Ascii.eqb_eq _].
    by rewrite filter_cons, p_us.
  - by rewrite !filter_cons, IH.
Qed.

Lemma dot_us_filter s :
  List.filter p (replace_pair "." "_" "." s) = List.filter p s.
Proof.
  induction s as [| |c d t IH1 IH2] using pair_ind; try done.
  rewrite replace_pair_cons2.
  destruct (Ascii.eqb c "." && Ascii.eqb d "_") eqn:M.
  - apply andb_true_iff in M as [->%Ascii.eqb_eq ->%Ascii.eqb_eq].
    by rewrite !filter_cons, p_us, IH1.
  - by rewrite !(filter_cons p c), IH2.
Qed.

Lemma us_dot_filter s :
  List.filter p (replace_pair "_" "." "." s) = List.filter p s.
Proof.
  induction s as [| |c d t IH1 IH2] using pair_ind; try done.
  rewrite replace_pair_cons2.
  destruct (Ascii.eqb c "_" && Ascii.eqb d ".") eqn:M.
  - apply andb_true_iff in M as [->%Ascii.eqb_eq ->%Ascii.eqb_eq].
    by rewrite !filter_cons, p_us, IH1.
  - by rewrite !(filter_cons p c), IH2.
Qed.

Lemma cleanup_filter s : List.filter p (cleanup s) = List.filter p s.
Proof.
  rewrite cleanup_closed.
  by rewrite us_dot_filter, dot_us_filter, drop_trailing_filter,
    drop_leading_filter, squeeze_filter.
Qed.

End Deletes.

Lemma squeeze_length x s : length (squeeze x s) <= length s.
Proof.
  induction s as [|c t IH]; [done|]. rewrite squeeze_cons.
  destruct (_ && _); simpl; lia.
Qed.

Lemma drop_leading_length x s : length (drop_leading x s) <= length s.
Proof. destruct s as [|c t]; [done|]. simpl. destruct (Ascii.eqb c x); simpl; lia. Qed.

Lemma drop_trailing_length x s : length (drop_trailing x s) <= length s.
Proof.
  induction s as [|c t IH]; [done|]. simpl. destruct (_ && _); simpl; lia.
Qed.

Lemma replace_pair_length a b x s : length (replace_pair a b x s) <= length s.
Proof.
  induction s as [| |c d t IH1 IH2] using pair_ind; try done.
  rewrite replace_pair_cons2. destruct (_ && _); simpl in *; lia.
Qed.

Lemma cleanup_length s : length (cleanup s) <= length s.
Proof.
  rewrite cleanup_closed.
  etrans; [apply replace_pair_length|]. etrans; [apply replace_pair_length|].
  etrans; [apply drop_trailing_length|]. etrans; [apply drop_leading_length|].
  apply squeeze_length.
Qed.

Lemma replace_class_filter s :
  List.filter (fun c => negb (collapsible c))
    (replace_class
       (OneOf [Chr ","; Chr "+"; Chr "*"; Chr "-"; Chr "/"; Chr "("; Chr ")";
               Chr "["; Chr "]"; Chr "{"; Chr "}"; Space]) "_" s) =
  List.filter (fun c => negb (collapsible c)) s.
Proof.
  induction s as [|c t IH]; [done|].
  change (replace_class ?cs "_" (c :: t)) with
    ((if separator c then "_" else c) :: replace_class cs "_" t).
  rewrite !filter_cons, IH. unfold collapsible.
  destruct (separator c) eqn:E; cbn match; by rewrite ?E.
Qed.

Section NormalizePlain.
Variable NFKD : list N -> list N.

(** Without [fix_case] and without a prefix, normalization of a str changes
    nothing but separators and underscores: the other characters of the name
    are all kept, in their order. *)
Theorem normalize_keeps_letters s :
  letters_of (normalize NFKD (Str s) None false) = letters_of s.
Proof.
  unfold letters_of. rewrite normalize_no_prefix, cleanup_filter; [|done].
  apply replace_class_filter.
Qed.

(** Without [fix_case] and without a prefix, the result for a str holds none
    of , + * - / ( ) [ ] { } nor whitespace, and it is never longer than the
    name. *)
Theorem normalize_no_separator s :
  Forall (fun c => separator c = false) (normalize NFKD (Str s) None false) /\
  length (normalize NFKD (Str s) None false) <= length s.
Proof.
  rewrite normalize_no_prefix. split.
  - apply cleanup_Forall; [done|]. by apply replace_class_Forall.
  - etrans; [apply cleanup_length|]. unfold replace_class. by rewrite length_map.
Qed.

(** The names that normalization without [fix_case] and without a prefix
    leaves as they are are the well-formed names without separator: those
    with none of , + * - / ( ) [ ] { } nor whitespace, no underscore at
    either end, no two underscores in a row and no underscore next to a
    dot. *)
Theorem normalize_fixed_points s :
  normalize NFKD (Str s) None false = s <->
  well_formed s /\ Forall (fun c => separator c = false) s.
Proof.
  split.
  - intros H. split.
    + rewrite <- H. unfold normalize. apply cleanup_well_formed.
    + rewrite <- H, normalize_no_prefix.
      apply cleanup_Forall; [done|]. by apply replace_class_Forall.
  - intros [Hw Hs]. rewrite normalize_no_prefix. cbn iota.
    rewrite replace_class_id; [|exact Hs].
    apply cleanup_id; [done|].
    eapply Forall_impl; [exact Hs|]. intros c Hc ->. done.
Qed.

End NormalizePlain.

(** ** strip *)

Lemma lstrip_drop x s : exists n, lstrip x s = drop n s.
Proof.
  induction s as [|c t [n IH]]; [by exists 0|]. simpl.
  destruct (Ascii.eqb c x); [by exists (S n) | by exists 0].
Qed.

Lemma lstrip_head x s : startswith [x] (lstrip x s) = false.
Proof.
  induction s as [|c t IH]; [done|]. cbn [lstrip].
  destruct (Ascii.eqb c x) eqn:E; [done|]. by rewrite startswith_one.
Qed.

Lemma lstrip_id x s : startswith [x] s = false -> lstrip x s = s.
Proof. rewrite startswith_one. destruct s as [|c t]; [done|]. simpl. by intros ->. Qed.

Lemma rstrip_take x s : exists n, rstrip x s = take n s.
Proof.
  unfold rstrip. destruct (lstrip_drop x (reverse s)) as [n ->].
  rewrite reverse_drop, reverse_involutive. eauto.
Qed.

Lemma rstrip_last x s : endswith [x] (rstrip x s) = false.
Proof.
  unfold endswith, rstrip. rewrite reverse_involutive. apply lstrip_head.
Qed.

Lemma rstrip_id x s : endswith [x] s = false -> rstrip x s = s.
Proof.
  unfold endswith, rstrip. change (reverse [x]) with [x]. intros H.
  by rewrite lstrip_id, reverse_involutive.
Qed.

Lemma startswith_take p s n :
  startswith p (take n s) = true -> startswith p s = true.
Proof.
  revert s n. induction p as [|a p IH]; intros [|c t] [|n]; simpl; try done.
  intros [-> H]%andb_true_iff. simpl. by eapply IH.
Qed.

Lemma contains_take p s n : contains p s = false -> contains p (take n s) = false.
Proof.
  revert n. induction s as [|c t IH]; intros n.
  - by rewrite take_nil.
  - destruct n as [|n]; simpl.
    + intros [H _]%orb_false_iff. destruct p; [done|]. done.
    + intros [H1 H2]%orb_false_iff. apply orb_false_iff. split; [|by apply IH].
      destruct (startswith p (c :: take n t)) eqn:E; [|done].
      apply (startswith_take p (c :: t) (S n)) in E. congruence.
Qed.

Lemma contains_drop p s n : contains p s = false -> contains p (drop n s) = false.
Proof.
  revert s. induction n as [|n IH]; intros [|c t]; try done.
  intros H. simpl. apply IH. by eapply contains_tail.
Qed.

Lemma strip_contains x p s : contains p s = false -> contains p (strip x s) = false.
Proof.
  intros H. unfold strip.
  destruct (rstrip_take x (lstrip x s)) as [n ->].
  destruct (lstrip_drop x s) as [m ->].
  by apply contains_take, contains_drop.
Qed.

Lemma strip_Forall (P : ascii -> Prop) x s : Forall P s -> Forall P (strip x s).
Proof.
  intros H. unfold strip.
  destruct (rstrip_take x (lstrip x s)) as [n ->].
  destruct (lstrip_drop x s) as [m ->].
  by apply Forall_take, Forall_drop.
Qed.

Lemma strip_start x s : startswith [x] (strip x s) = false.
Proof.
  unfold strip. destruct (rstrip_take x (lstrip x s)) as [n ->].
  destruct (startswith [x] (take n (lstrip x s))) eqn:E; [|done].
  apply startswith_take in E. by rewrite lstrip_head in E.
Qed.

Lemma strip_end x s : endswith [x] (strip x s) = false.
Proof. apply rstrip_last. Qed.

Lemma strip_id x s :
  startswith [x] s = false -> endswith [x] s = false -> strip x s = s.
Proof. intros H1 H2. unfold strip. by rewrite lstrip_id, rstrip_id. Qed.

(** ** DOT_UNDERSCORE_CLEANUP *)

Lemma greedy_none_run {A} cs s : forall bos (k : bool -> bytes -> option A),
  (forall b j, j <= span cs s -> k b (drop j s) = None) ->
  greedy cs bos s k = None.
Proof.
  induction s as [|c t IH]; intros bos k H; simpl.
  - apply (H bos 0). simpl. lia.
  - simpl in H. destruct (cset_mem cs c).
    + rewrite IH; [apply (H bos 0); lia|].
      intros b j Hj. apply (H b (S j)). lia.
    + apply (H bos 0). lia.
Qed.

Lemma span_inside cs s : forall j, j < span cs s ->
  exists c t, drop j s = c :: t /\ cset_mem cs c = true.
Proof.
  induction s as [|c t IH]; intros j; simpl; [lia|].
  destruct (cset_mem cs c) eqn:E; [|lia]. destruct j as [|j]; simpl.
  - eauto.
  - intros H. apply IH. lia.
Qed.

Lemma us_mem c : cset_mem us c = Ascii.eqb c "_".
Proof. apply cset_mem_one. Qed.

Lemma match_dot_cleanup_spec bos s :
  match_at DOT_UNDERSCORE_CLEANUP bos s =
  if dot_run s
  then Some (span us s + 1 + span us (drop (S (span us s)) s), [])
  else None.
Proof.
  unfold match_at, DOT_UNDERSCORE_CLEANUP, dot_run. simpl rmatch.
  rewrite startswith_one. fold us.
  destruct (drop (span us s) s) as [|c t'] eqn:Ed.
  - apply greedy_none_run. intros b j Hj.
    destruct (decide (j = span us s)) as [->|Hne]; [by rewrite Ed|].
    destruct (span_inside us s j) as (d & u & -> & Hd); [lia|].
    rewrite us_mem in Hd. apply Ascii.eqb_eq in Hd as ->. by rewrite cset_mem_one.
  - destruct (Ascii.eqb_spec c ".") as [->|Hc].
    + apply greedy_longest. rewrite Ed, cset_mem_one. simpl.
      apply greedy_longest. f_equal. f_equal.
      assert (Ht : drop (S (span us s)) s = t').
      { replace (S (span us s)) with (span us s + 1) by lia.
        by rewrite <- (drop_drop s 1 (span us s)), Ed. }
      rewrite Ht, length_drop.
      assert (Hl : length s = span us s + S (length t')).
      { rewrite <- (take_drop (span us s) s) at 1.
        rewrite length_app, Ed, length_take_le; [done | apply span_le]. }
      pose proof (span_le us t'). lia.
    + apply greedy_none_run. intros b j Hj.
      destruct (decide (j = span us s)) as [->|Hne].
      * rewrite Ed, cset_mem_one. by apply Ascii.eqb_neq in Hc as ->.
      * destruct (span_inside us s j) as (d & u & -> & Hd); [lia|].
        rewrite us_mem in Hd. apply Ascii.eqb_eq in Hd as ->. by rewrite cset_mem_one.
Qed.

Lemma dot_run_us t : dot_run ("_" :: t) = dot_run t.
Proof. done. Qed.

Lemma dot_run_dot t : dot_run ("." :: t) = true.
Proof. done. Qed.

Lemma dot_run_other c t : c <> "_" -> dot_run (c :: t) = startswith ["."] (c :: t).
Proof.
  intros H. unfold dot_run. simpl span. rewrite us_mem.
  by apply Ascii.eqb_neq in H as ->.
Qed.

Lemma dot_cleanup_nonempty : 1 <= min_len DOT_UNDERSCORE_CLEANUP.
Proof. simpl. lia. Qed.

(** After the substitution no underscore touches a dot. *)
Lemma sub_dot_cleanup_shape s :
  contains (str "_.") (sub DOT_UNDERSCORE_CLEANUP [Lit (str ".")] s) = false /\
  contains (str "._") (sub DOT_UNDERSCORE_CLEANUP [Lit (str ".")] s) = false.
Proof.
  change (str "_.") with ["_"; "."]. change (str "._") with ["."; "_"].
  enough (H : contains ["_"; "."] (sub DOT_UNDERSCORE_CLEANUP [Lit (str ".")] s) = false /\
              contains ["."; "_"] (sub DOT_UNDERSCORE_CLEANUP [Lit (str ".")] s) = false /\
              (startswith ["_"] (sub DOT_UNDERSCORE_CLEANUP [Lit (str ".")] s) = true ->
               startswith ["_"] s = true /\ dot_run s = false) /\
              (startswith ["."] (sub DOT_UNDERSCORE_CLEANUP [Lit (str ".")] s) = true ->
               dot_run s = true)) by tauto.
  unfold sub.
  apply (sub_loop_ind DOT_UNDERSCORE_CLEANUP [Lit (str ".")] dot_cleanup_nonempty
           (fun _ s out =>
              contains ["_"; "."] out = false /\
              contains ["."; "_"] out = false /\
              (startswith ["_"] out = true ->
               startswith ["_"] s = true /\ dot_run s = false) /\
              (startswith ["."] out = true -> dot_run s = true))).
  - done.
  - intros b c t out E (H1 & H2 & H3 & H4).
    rewrite match_dot_cleanup_spec in E.
    destruct (dot_run (c :: t)) eqn:Hr; [done|].
    assert (Hc : (c =? ".") = false).
    { apply Ascii.eqb_neq. intros ->. by rewrite dot_run_dot in Hr. }
    destruct out as [|d out'].
    + rewrite !startswith_one.
      split; [by rewrite contains_pair|]. split; [by rewrite contains_pair|]. split.
      * intros Hd. by split.
      * intros Hd. congruence.
    + rewrite (contains_pair "_" "." (c :: d :: out')),
        (contains_pair "." "_" (c :: d :: out')), H1, H2, Hc, !orb_false_r.
      rewrite !startswith_one in *. simpl andb. split; [|split; [done|split]].
      * destruct (Ascii.eqb_spec c "_") as [->|]; [|done].
        destruct (Ascii.eqb_spec d ".") as [->|]; [|done].
        rewrite dot_run_us in Hr. rewrite H4 in Hr; done.
      * intros Hd. by split.
      * intros Hd. congruence.
  - intros b u n g out E L (H1 & H2 & H3 & H4).
    rewrite match_dot_cleanup_spec in E.
    destruct (dot_run u) eqn:Hr; [|done]. inversion E as [[En Eg]].
    change (expand [Lit (str ".")] ?g0 ++ out) with ("." :: out).
    assert (Hs : startswith ["_"] (drop (S n) u) = false).
    { rewrite startswith_one, <- En.
      replace (span us u + 1 + span us (drop (S (span us u)) u))
        with (S (span us u) + span us (drop (S (span us u)) u)) by lia.
      rewrite <- drop_drop.
      destruct (drop _ (drop _ u)) as [|d v] eqn:Ed; [done|].
      apply span_stop in Ed. by rewrite us_mem in Ed. }
    destruct out as [|d out'].
    + split; [by rewrite contains_pair|]. split; [by rewrite contains_pair|].
      split; [done|]. done.
    + rewrite (contains_pair "_" "." ("." :: d :: out')),
        (contains_pair "." "_" ("." :: d :: out')), H1, H2, !orb_false_r.
      rewrite !startswith_one in *. simpl andb. split; [done|split; [|split; done]].
      destruct (Ascii.eqb_spec d "_") as [->|]; [|done].
      destruct (H3 eq_refl) as [H3' _]. congruence.
Qed.

(** ** The alphabet of the result under fix_case *)

Lemma lower_char_not_upper c : is_upper (lower_char c) = false.
Proof. by_bytes c. Qed.

Lemma word_not_upper_lower c :
  cset_mem non_word c = false -> is_upper c = false -> lower_word c = true.
Proof. by_bytes c. Qed.

Lemma lower_word_not_upper c : lower_word c = true -> is_upper c = false.
Proof. by_bytes c. Qed.

Lemma lower_word_word c : lower_word c = true -> cset_mem non_word c = false.
Proof. by_bytes c. Qed.

Lemma lower_word_not_separator c : lower_word c = true -> separator c = false.
Proof. by_bytes c. Qed.

Lemma is_lower_letter c : is_lower c = true -> cset_mem non_letter c = false.
Proof. by_bytes c. Qed.

Lemma lower_no_upper s : no_upper (lower s).
Proof.
  unfold no_upper, lower. induction s as [|c t IH]; simpl; constructor; [|done].
  apply lower_char_not_upper.
Qed.

Section SubLit.
Variable r : regex.
Variable lit : bytes.
Hypothesis nonempty : 1 <= min_len r.
Variable P : ascii -> Prop.

(** A substitution by a literal text keeps a property of the characters that
    the text has. *)
Lemma sub_lit_Forall s : Forall P lit -> Forall P s -> Forall P (sub r [Lit lit] s).
Proof.
  intros Hl. unfold sub.
  apply (sub_loop_ind r [Lit lit] nonempty (fun _ s out => Forall P s -> Forall P out)).
  - done.
  - intros b c t out _ IH [Hc Ht]%Forall_cons. constructor; auto.
  - intros b u n g out _ _ IH H. cbn [expand flat_map]. rewrite app_nil_r.
    apply Forall_app. split; [done|]. apply IH. by apply Forall_drop.
Qed.

End SubLit.

Lemma sub_metric_alphabet s :
  no_upper s -> Forall (fun c => lower_word c = true)
                  (sub METRIC_REPLACEMENT [Lit (str "_")] s).
Proof.
  unfold sub.
  apply (sub_loop_ind METRIC_REPLACEMENT [Lit (str "_")] metric_nonempty
           (fun _ s out => no_upper s -> Forall (fun c => lower_word c = true) out)).
  - done.
  - intros b c t out E IH [Hc Ht]%Forall_cons. constructor; [|auto].
    apply word_not_upper_lower; [|done].
    destruct (cset_mem non_word c) eqn:Hw; [|done].
    by apply (match_metric_non_word b c t) in Hw.
  - intros b u n g out _ _ IH H. constructor; [done|].
    apply IH. by apply Forall_drop.
Qed.

Lemma convert_alphabet name :
  Forall (fun c => lower_word c = true) (convert_to_underscore_separated name).
Proof.
  unfold convert_to_underscore_separated.
  apply strip_Forall, sub_lit_Forall.
  - apply dot_cleanup_nonempty.
  - by repeat constructor.
  - apply sub_metric_alphabet, lower_no_upper.
Qed.

(** What [convert_to_underscore_separated] returns: lowercase letters,
    digits, underscores and dots only, no underscore at either end and no
    underscore next to a dot. *)
Theorem convert_to_underscore_separated_shape name :
  let r := convert_to_underscore_separated name in
  Forall (fun c => lower_word c = true) r /\
  startswith (str "_") r = false /\
  endswith (str "_") r = false /\
  contains (str "._") r = false /\
  contains (str "_.") r = false.
Proof.
  split; [apply convert_alphabet|].
  unfold convert_to_underscore_separated.
  set (x := sub METRIC_REPLACEMENT _ _).
  destruct (sub_dot_cleanup_shape x) as [H1 H2].
  split; [apply strip_start | split; [apply strip_end|]].
  split; by apply strip_contains.
Qed.

Lemma match_metric_lower_word t :
  Forall (fun c => lower_word c = true) t ->
  match_at METRIC_REPLACEMENT false t = None.
Proof.
  intros H. unfold match_at, METRIC_REPLACEMENT. simpl rmatch.
  destruct H as [|c t' Hc _]; [done|]. fold non_word.
  by rewrite (lower_word_word c Hc).
Qed.

Lemma match_metric_letter c t :
  lower_word c = true -> is_lower c = true ->
  match_at METRIC_REPLACEMENT true (c :: t) = None.
Proof.
  intros Hw Hl. unfold match_at, METRIC_REPLACEMENT. simpl rmatch.
  fold non_word non_letter.
  by rewrite (lower_word_word c Hw), (is_lower_letter c Hl).
Qed.

Lemma dot_run_inside s :
  dot_run s = true -> 0 < span us s -> contains ["_"; "."] s = true.
Proof.
  induction s as [|c t IH]; [done|]. unfold dot_run. simpl span. rewrite us_mem.
  destruct (Ascii.eqb_spec c "_") as [->|]; [|lia]. simpl drop.
  intros Hr _. rewrite contains_pair.
  destruct (span us t) as [|n] eqn:Es.
  - rewrite startswith_one in Hr. destruct t as [|d t']; [done|].
    simpl in Hr. by rewrite Hr, Ascii.eqb_refl.
  - destruct t as [|d t']; [done|]. rewrite IH, orb_true_r; [done| |lia].
    unfold dot_run. by rewrite Es.
Qed.

(** On a name where no underscore touches a dot, DOT_UNDERSCORE_CLEANUP
    replaces each dot by itself. *)
Lemma sub_dot_cleanup_clean s :
  contains ["_"; "."] s = false -> contains ["."; "_"] s = false ->
  sub DOT_UNDERSCORE_CLEANUP [Lit (str ".")] s = s.
Proof.
  unfold sub.
  apply (sub_loop_ind DOT_UNDERSCORE_CLEANUP [Lit (str ".")] dot_cleanup_nonempty
           (fun _ s out => contains ["_"; "."] s = false ->
                           contains ["."; "_"] s = false -> out = s)).
  - done.
  - intros b c t out _ IH H1 H2. f_equal.
    apply IH; by eapply contains_tail.
  - intros b u n g out E L IH H1 H2.
    rewrite match_dot_cleanup_spec in E.
    destruct (dot_run u) eqn:Hr; [|done]. inversion E as [[En Eg]].
    change (expand [Lit (str ".")] ?g0 ++ out) with ("." :: out).
    destruct (span us u) as [|k] eqn:Es.
    2:{ rewrite dot_run_inside in H1; [done | done | lia]. }
    unfold dot_run in Hr. rewrite Es, startswith_one in Hr. simpl in Hr.
    destruct u as [|c t]; [done|]. apply Ascii.eqb_eq in Hr as ->.
    change (drop 1 ("." :: t)) with t in En.
    destruct (span us t) as [|k] eqn:Et.
    + assert (n = 0) as -> by lia. simpl drop in IH. f_equal.
      apply IH; by eapply contains_tail.
    + rewrite contains_pair in H2. destruct t as [|d t']; [done|].
      simpl in Et. rewrite us_mem in Et.
      destruct (Ascii.eqb_spec d "_") as [->|]; [|done]. done.
Qed.

Section NormalizeFixCase.
Variable NFKD : list N -> list N.

(** With [fix_case] and no prefix the result is made of lowercase letters,
    digits, underscores and dots. *)
Theorem normalize_fix_case_alphabet metric :
  Forall (fun c => lower_word c = true) (normalize NFKD metric None true).
Proof.
  unfold normalize. cbn zeta iota. apply cleanup_Forall; [done|].
  apply convert_alphabet.
Qed.

(** A well-formed name of lowercase letters, digits, underscores and dots
    that starts with a letter is returned as it is, with and without
    [fix_case]. *)
Theorem normalize_normal_name c t fix_case :
  is_lower c = true ->
  Forall (fun c => lower_word c = true) (c :: t) ->
  well_formed (c :: t) ->
  normalize NFKD (Str (c :: t)) None fix_case = c :: t.
Proof.
  intros Hl Ha Hw. pose proof Hw as (W1 & W2 & W3 & W4 & W5).
  assert (Hn : Forall (fun c => c <> "010") (c :: t)).
  { eapply Forall_impl; [exact Ha|]. intros d Hd ->. done. }
  destruct fix_case.
  - unfold normalize. cbn zeta iota.
    assert (Hc : convert_to_underscore_separated (c :: t) = c :: t).
    { unfold convert_to_underscore_separated.
      assert (Hu : no_upper (c :: t)).
      { eapply Forall_impl; [exact Ha|]. apply lower_word_not_upper. }
      rewrite sub_first_cap_id, sub_all_cap_id, lower_id; try done.
      assert (Hm : sub METRIC_REPLACEMENT [Lit (str "_")] (c :: t) = c :: t).
      { apply (sub_loop_nomatch _ _ (Forall (fun c => lower_word c = true))).
        - by intros d u [_ ?]%Forall_cons.
        - apply match_metric_lower_word.
        - done.
        - apply match_metric_letter; [|done]. by apply Forall_cons in Ha as [? _]. }
      rewrite Hm, sub_dot_cleanup_clean; [|done..].
      by apply strip_id. }
    rewrite Hc. by apply cleanup_id.
  - rewrite normalize_no_prefix. cbn iota. rewrite replace_class_id.
    + by apply cleanup_id.
    + eapply Forall_impl; [exact Ha|]. apply lower_word_not_separator.
Qed.

End NormalizeFixCase.

(** [normalize_normal_name] on the name 'apache.net.bytes'. *)
Lemma normalize_normal_name_witness :
  is_lower "a" = true /\
  Forall (fun c => lower_word c = true) (str "apache.net.bytes") /\
  well_formed (str "apache.net.bytes") /\
  normalize (fun u => u) (Str (str "apache.net.bytes")) None true
  = str "apache.net.bytes".
Proof.
  assert (Ha : Forall (fun c => lower_word c = true) (str "apache.net.bytes"))
    by (repeat constructor).
  assert (Hw : well_formed (str "apache.net.bytes")) by (repeat split).
  split; [reflexivity|]. split; [exact Ha|]. split; [exact Hw|].
  exact (normalize_normal_name (fun u => u) "a" (str "pache.net.bytes") true
           eq_refl Ha Hw).
Defined.

(** ** Names without letters and digits *)

Lemma plain_cases c :
  alphanumeric c = false -> cset_mem non_word c = true \/ c = "_" \/ c = ".".
Proof.
  destruct c as [[] [] [] [] [] [] [] []]; vm_compute; intros H;
    first [done | by left | by right; left | by right; right].
Qed.

Lemma plain_not_upper c : alphanumeric c = false -> is_upper c = false.
Proof. by_bytes c. Qed.

Lemma plain_non_letter c : alphanumeric c = false -> cset_mem non_letter c = true.
Proof. by_bytes c. Qed.

Lemma non_word_plain c : cset_mem non_word c = true -> c <> "." /\ c <> "_".
Proof. by_bytes c. Qed.

Lemma collapsible_plain c : collapsible c = true -> alphanumeric c = false.
Proof. by_bytes c. Qed.

Lemma punctuation_plain c : punctuation c = true -> alphanumeric c = false.
Proof. by_bytes c. Qed.

Lemma span_take cs s : Forall (fun c => cset_mem cs c = true) (take (span cs s) s).
Proof.
  induction s as [|c t IH]; [done|]. simpl.
  destruct (cset_mem cs c) eqn:E; [by constructor | done].
Qed.

Lemma match_metric_run b c t :
  cset_mem non_word c = true ->
  exists g, match_at METRIC_REPLACEMENT b (c :: t) = Some (S (span non_word t), g).
Proof.
  intros H. unfold match_at, METRIC_REPLACEMENT. simpl rmatch.
  fold non_word. rewrite H.
  erewrite greedy_longest; [|reflexivity].
  eexists. f_equal. f_equal. rewrite length_drop.
  pose proof (span_le non_word t). lia.
Qed.

Lemma match_metric_inside c t :
  cset_mem non_word c = false -> match_at METRIC_REPLACEMENT false (c :: t) = None.
Proof.
  intros H. unfold match_at, METRIC_REPLACEMENT. simpl rmatch.
  fold non_word. by rewrite H.
Qed.

Lemma match_metric_head c t :
  cset_mem non_word c = false ->
  Forall (fun c => cset_mem non_letter c = true) (c :: t) ->
  exists g, match_at METRIC_REPLACEMENT true (c :: t) = Some (S (length t), g).
Proof.
  intros Hw [Hc Ht]%Forall_cons. unfold match_at, METRIC_REPLACEMENT. simpl rmatch.
  fold non_word non_letter. rewrite Hw, Hc.
  eexists. apply greedy_longest. rewrite span_all, drop_all; [|done].
  simpl. rewrite Nat.sub_0_r. by destruct t.
Qed.

Lemma sub_metric_head c t :
  cset_mem non_word c = false ->
  Forall (fun c => cset_mem non_letter c = true) (c :: t) ->
  sub METRIC_REPLACEMENT [Lit (str "_")] (c :: t) = str "_".
Proof.
  intros Hw H. destruct (match_metric_head c t Hw H) as [g E].
  unfold sub. rewrite sub_loop_step, E.
  change (drop _ (c :: t)) with (drop (length t) t).
  rewrite drop_all, sub_loop_step. done.
Qed.

Lemma sub_metric_plain s :
  Forall (fun c => alphanumeric c = false) s ->
  Forall (fun c => c <> ".") s ->
  Forall (fun c => c = "_") (sub METRIC_REPLACEMENT [Lit (str "_")] s).
Proof.
  unfold sub.
  apply (sub_loop_ind METRIC_REPLACEMENT [Lit (str "_")] metric_nonempty
           (fun _ s out => Forall (fun c => alphanumeric c = false) s ->
                           Forall (fun c => c <> ".") s ->
                           Forall (fun c => c = "_") out)).
  - done.
  - intros b c t out E IH [Hc Ht]%Forall_cons [Hd Hdt]%Forall_cons.
    constructor; [|auto].
    destruct (plain_cases c Hc) as [Hw|[->| ->]]; [|done|done].
    by apply (match_metric_non_word b c t) in Hw.
  - intros b u n g out E L IH H1 H2. constructor; [done|].
    apply IH; by apply Forall_drop.
Qed.

Lemma sub_metric_dot s :
  (exists c t, s = c :: t /\ cset_mem non_word c = true) ->
  "." ∈ s -> "." ∈ sub METRIC_REPLACEMENT [Lit (str "_")] s.
Proof.
  unfold sub. intros Hs.
  enough (H : forall s b a,
            (b = true -> exists c t, s = c :: t /\ cset_mem non_word c = true) ->
            "." ∈ s -> "." ∈ sub_loop METRIC_REPLACEMENT [Lit (str "_")] b a 0 s)
    by (by apply H).
  clear s Hs.
  apply (sub_loop_ind METRIC_REPLACEMENT [Lit (str "_")] metric_nonempty
           (fun b s out =>
              (b = true -> exists c t, s = c :: t /\ cset_mem non_word c = true) ->
              "." ∈ s -> "." ∈ out)).
  - intros b _ H. by apply elem_of_nil in H.
  - intros b c t out E IH _ [->|Hin]%elem_of_cons; [by left|].
    right. by apply IH.
  - intros b u n g out E L IH Hb Hin.
    destruct u as [|c t]; [simpl in L; lia|].
    assert (Hw : cset_mem non_word c = true).
    { destruct b.
      - destruct (Hb eq_refl) as (c' & t' & [= <- <-] & Hw). done.
      - destruct (cset_mem non_word c) eqn:Hw; [done|].
        by rewrite match_metric_inside in E. }
    destruct (match_metric_run b c t Hw) as [g' E'].
    rewrite E' in E. inversion E as [[En Eg]].
    apply elem_of_app. right. apply IH; [done|].
    rewrite <- En. change (drop (S ?k) (c :: t)) with (drop k t).
    apply elem_of_cons in Hin as [<-|Hin]; [by destruct (non_word_plain _ Hw)|].
    rewrite <- (take_drop (span non_word t) t) in Hin.
    apply elem_of_app in Hin as [Hin|Hin]; [|done].
    pose proof (span_take non_word t) as Ht.
    rewrite Forall_forall in Ht. apply Ht in Hin.
    by destruct (non_word_plain _ Hin).
Qed.

Lemma sub_dot_cleanup_dot s :
  "." ∈ s -> "." ∈ sub DOT_UNDERSCORE_CLEANUP [Lit (str ".")] s.
Proof.
  unfold sub.
  apply (sub_loop_ind DOT_UNDERSCORE_CLEANUP [Lit (str ".")] dot_cleanup_nonempty
           (fun _ s out => "." ∈ s -> "." ∈ out)).
  - done.
  - intros b c t out E IH [->|Hin]%elem_of_cons; [by left|]. right. by apply IH.
  - intros b u n g out E L IH Hin. by left.
Qed.

Lemma lstrip_elem x y s : y <> x -> y ∈ s -> y ∈ lstrip x s.
Proof.
  intros Hne. induction s as [|c t IH]; [done|]. simpl.
  destruct (Ascii.eqb_spec c x) as [->|]; [|done].
  intros [->|Hin]%elem_of_cons; [done|]. by apply IH.
Qed.

Lemma strip_elem x y s : y <> x -> y ∈ s -> y ∈ strip x s.
Proof.
  intros Hne Hin. unfold strip, rstrip.
  apply elem_of_reverse, lstrip_elem; [done|].
  apply elem_of_reverse. by apply lstrip_elem.
Qed.

Lemma filter_elem (p : ascii -> bool) y s :
  p y = true -> y ∈ s -> List.filter p s <> [].
Proof.
  intros Hp. induction s as [|c t IH]; [by intros H%elem_of_nil|].
  rewrite filter_cons. intros [<-|Hin]%elem_of_cons.
  - by rewrite Hp.
  - destruct (p c); [done|]. by apply IH.
Qed.

Lemma filter_nil_Forall (p : ascii -> bool) s :
  List.filter p s = [] -> Forall (fun c => p c = false) s.
Proof.
  induction s as [|c t IH]; [done|]. rewrite filter_cons.
  destruct (p c) eqn:E; [done|]. intros H. constructor; [done|]. by apply IH.
Qed.

Lemma cleanup_dot s : "." ∈ s -> cleanup s <> [].
Proof.
  intros Hin Hc.
  apply (filter_elem (fun c => Ascii.eqb c ".") "." s eq_refl) in Hin.
  rewrite <- (cleanup_filter _ eq_refl), Hc in Hin. done.
Qed.

Lemma convert_plain s :
  Forall (fun c => alphanumeric c = false) s ->
  convert_to_underscore_separated s =
  strip "_" (sub DOT_UNDERSCORE_CLEANUP [Lit (str ".")]
               (sub METRIC_REPLACEMENT [Lit (str "_")] s)).
Proof.
  intros H. unfold convert_to_underscore_separated.
  assert (Hu : no_upper s).
  { eapply Forall_impl; [exact H|]. apply plain_not_upper. }
  by rewrite sub_first_cap_id, sub_all_cap_id, lower_id.
Qed.

Lemma convert_underscores s :
  Forall (fun c => c = "_") s ->
  strip "_" (sub DOT_UNDERSCORE_CLEANUP [Lit (str ".")] s) = [].
Proof.
  intros H. rewrite sub_dot_cleanup_id.
  - by apply strip_all.
  - eapply Forall_impl; [exact H|]. by intros c ->.
Qed.

Section NormalizeCollapse.
Variable NFKD : list N -> list N.

(** C8, as amended: without [fix_case], the names that are normalized to
    the empty string are exactly those made only of the characters
    , + * - / ( ) [ ] { }, whitespace and underscore.  With [fix_case], a
    name without letters and digits (a name of punctuation characters, for
    one) is normalized to the empty string exactly when it holds no dot, or
    starts with a dot or with an underscore. *)
Theorem normalize_collapsible s :
  (normalize NFKD (Str s) None false = [] <->
   Forall (fun c => collapsible c = true) s) /\
  (Forall (fun c => alphanumeric c = false) s ->
   (normalize NFKD (Str s) None true = [] <->
    Forall (fun c => c <> ".") s \/
    startswith (str ".") s = true \/ startswith (str "_") s = true)).
Proof.
  split.
  - rewrite normalize_no_prefix. cbn iota. split.
    + intros H.
      pose proof (replace_class_filter s) as Hf.
      rewrite <- (cleanup_filter (fun c => negb (collapsible c)) eq_refl), H in Hf.
      symmetry in Hf. apply filter_nil_Forall in Hf.
      eapply Forall_impl; [exact Hf|]. intros c Hc. by apply negb_false_iff.
    + intros H. apply cleanup_all_underscores. by apply replace_class_collapsible.
  - intros Hp. unfold normalize. cbn zeta iota. rewrite convert_plain; [|done].
    assert (Hhead : forall c t, s = c :: t -> cset_mem non_word c = false ->
              cleanup (strip "_" (sub DOT_UNDERSCORE_CLEANUP [Lit (str ".")]
                         (sub METRIC_REPLACEMENT [Lit (str "_")] s))) = []).
    { intros c t -> Hw. rewrite sub_metric_head; [done|done|].
      eapply Forall_impl; [exact Hp|]. apply plain_non_letter. }
    change (str ".") with ["."]. change (str "_") with ["_"].
    split.
    + intros H. destruct (decide ("." ∈ s)) as [Hin|Hnin].
      * destruct s as [|c t]; [by left|]. right. rewrite !startswith_one.
        apply Forall_cons in Hp as [Hc Hp].
        destruct (plain_cases c Hc) as [Hw|[->| ->]]; [|by right|by left].
        exfalso. revert H. apply cleanup_dot, strip_elem; [done|].
        apply sub_dot_cleanup_dot, sub_metric_dot; [|done]. by exists c, t.
      * left. apply Forall_forall. by intros c Hc ->.
    + intros [Hd|[Hs|Hs]].
      * rewrite convert_underscores; [done|]. by apply sub_metric_plain.
      * destruct s as [|c t]; [done|]. rewrite startswith_one in Hs.
        apply Ascii.eqb_eq in Hs as ->. by apply (Hhead "." t).
      * destruct s as [|c t]; [done|]. rewrite startswith_one in Hs.
        apply Ascii.eqb_eq in Hs as ->. by apply (Hhead "_" t).
Qed.

End NormalizeCollapse.

(** The theorem of C8 on the names "-_( )" and "!?(-)_". *)
Lemma normalize_collapsible_witness :
  Forall (fun c => collapsible c = true) (str "-_( )") /\
  normalize (fun u => u) (Str (str "-_( )")) None false = [] /\
  Forall (fun c => alphanumeric c = false) (str "!?(-)_") /\
  Forall (fun c => c <> ".") (str "!?(-)_") /\
  normalize (fun u => u) (Str (str "!?(-)_")) None true = [].
Proof.
  assert (H1 : Forall (fun c => collapsible c = true) (str "-_( )"))
    by (repeat constructor).
  assert (H2 : Forall (fun c => alphanumeric c = false) (str "!?(-)_"))
    by (repeat constructor).
  assert (H3 : Forall (fun c => c <> ".") (str "!?(-)_"))
    by (repeat constructor; discriminate).
  split; [exact H1|]. split.
  - exact (proj2 (proj1 (normalize_collapsible (fun u => u) (str "-_( )"))) H1).
  - split; [exact H2|]. split; [exact H3|].
    exact (proj2 (proj2 (normalize_collapsible (fun u => u) (str "!?(-)_")) H2)
             (or_introl H3)).
Defined.

(** * The check object *)

Import AgentCheck.

Lemma state_eta st :
  State (heap st) (log_warning st) (_deprecations st) (check_id st) (aggregator st) = st.
Proof. by destruct st. Qed.

Lemma run_bind {A B} (m : M A) (f : A -> M B) st :
  (m ≫= f) st =
  match m st with
  | (Ret a, st') => f a st'
  | (Raise e, st') => (Raise e, st')
  end.
Proof. done. Qed.

Lemma run_ret {A} (a : A) st : (mret a : M A) st = (Ret a, st).
Proof. done. Qed.

Section TagFacts.
Variable ensure_bytes : tag -> outcome bytes.

Lemma normalize_loop_cons t ts l' st :
  normalize_loop ensure_bytes (t :: ts) l' st =
  match normalize_tag ensure_bytes t st with
  | (Ret (Some t'), st1) => normalize_loop ensure_bytes ts l' (append l' t' st1).2
  | (Ret None, st1) => normalize_loop ensure_bytes ts l' st1
  | (Raise e, st1) => (Raise e, st1)
  end.
Proof.
  cbn [normalize_loop]. rewrite !run_bind.
  by destruct (normalize_tag ensure_bytes t st) as [[[t'|]|e] st1].
Qed.

Lemma normalize_tag_spec t st :
  propagates ensure_bytes t = false ->
  normalize_tag ensure_bytes t st =
  (Ret (TStr <$> coerced ensure_bytes t),
   set_log (log_warning st ++ tag_warning ensure_bytes t) st).
Proof.
  unfold normalize_tag, propagates, coerced, tag_warning, try_except, set_log.
  destruct t as [b|u|[b|e]]; simpl.
  - destruct (ensure_bytes (TStr b)) as [b'|e]; simpl.
    + intros _. by rewrite app_nil_r, state_eta.
    + intros H. apply negb_false_iff in H. by rewrite H.
  - destruct (ensure_bytes (TUnicode u)) as [b'|e]; simpl.
    + intros _. by rewrite app_nil_r, state_eta.
    + intros H. apply negb_false_iff in H. by rewrite H.
  - intros _. by rewrite app_nil_r, state_eta.
  - intros H. apply negb_false_iff in H. by rewrite H.
Qed.

Lemma normalize_tag_heap t st :
  heap (normalize_tag ensure_bytes t st).2 = heap st.
Proof.
  unfold normalize_tag, try_except.
  destruct t as [b|u|[b|e]]; simpl;
    repeat match goal with
    | |- context [ensure_bytes ?t] => destruct (ensure_bytes t); simpl
    | |- context [if ?b then _ else _] => destruct b; simpl
    end; done.
Qed.

Lemma normalize_tag_aggregator t st :
  aggregator (normalize_tag ensure_bytes t st).2 = aggregator st.
Proof.
  unfold normalize_tag, try_except.
  destruct t as [b|u|[b|e]]; simpl;
    repeat match goal with
    | |- context [ensure_bytes ?t] => destruct (ensure_bytes t); simpl
    | |- context [if ?b then _ else _] => destruct b; simpl
    end; done.
Qed.

(** The loop, when no conversion raises past its handler. *)
Lemma normalize_loop_spec ts l' : forall st acc,
  heap st !! l' = Some acc ->
  Forall (fun t => propagates ensure_bytes t = false) ts ->
  normalize_loop ensure_bytes ts l' st =
  (Ret tt,
   set_heap (<[l' := acc ++ (TStr <$> omap (coerced ensure_bytes) ts)]> (heap st))
     (set_log (log_warning st ++ flat_map (tag_warning ensure_bytes) ts) st)).
Proof.
  induction ts as [|t ts IH]; intros st acc Hl Hp.
  - simpl. unfold mret, M_ret, set_heap, set_log. simpl.
    by rewrite !app_nil_r, insert_id, state_eta.
  - apply Forall_cons in Hp as [Ht Hp].
    rewrite normalize_loop_cons, normalize_tag_spec; [|done].
    destruct (coerced ensure_bytes t) as [b|] eqn:Ec; simpl.
    + rewrite Ec. simpl. rewrite Hl. simpl.
      erewrite IH; [|by simpl; rewrite lookup_insert_eq|done].
      simpl. unfold set_heap, set_log. simpl.
      by rewrite insert_insert_eq, <- !app_assoc.
    + rewrite Ec. simpl.
      erewrite IH; [|by simpl|done].
      unfold set_heap, set_log. simpl. by rewrite <- !app_assoc.
Qed.

(** The loop writes to [normalized_tags] and to no other list. *)
Lemma normalize_loop_frame ts l' l0 : forall st,
  l0 <> l' -> heap (normalize_loop ensure_bytes ts l' st).2 !! l0 = heap st !! l0.
Proof.
  induction ts as [|t ts IH]; intros st Hne; [done|].
  rewrite normalize_loop_cons.
  pose proof (normalize_tag_heap t st) as Hh.
  destruct (normalize_tag ensure_bytes t st) as [[[t'|]|e] st1]; simpl in *.
  - rewrite IH; [|done]. simpl. by rewrite lookup_insert_ne, Hh.
  - rewrite IH; [|done]. by rewrite Hh.
  - by rewrite Hh.
Qed.

Lemma normalize_loop_aggregator ts l' : forall st,
  aggregator (normalize_loop ensure_bytes ts l' st).2 = aggregator st.
Proof.
  induction ts as [|t ts IH]; intros st; [done|].
  rewrite normalize_loop_cons.
  pose proof (normalize_tag_aggregator t st) as Hh.
  destruct (normalize_tag ensure_bytes t st) as [[[t'|]|e] st1]; simpl in *.
  - by rewrite IH.
  - by rewrite IH.
  - done.
Qed.

Lemma normalize_loop_live ts l' l0 : forall st,
  is_Some (heap st !! l0) ->
  is_Some (heap (normalize_loop ensure_bytes ts l' st).2 !! l0).
Proof.
  induction ts as [|t ts IH]; intros st Hl; [done|].
  rewrite normalize_loop_cons.
  pose proof (normalize_tag_heap t st) as Hh.
  destruct (normalize_tag ensure_bytes t st) as [[[t'|]|e] st1]; simpl in *.
  - apply IH. simpl. rewrite Hh. destruct (decide (l' = l0)) as [->|].
    + by rewrite lookup_insert_eq.
    + by rewrite lookup_insert_ne.
  - apply IH. by rewrite Hh.
  - by rewrite Hh.
Qed.

Lemma normalize_tags_type_unfold l st :
  _normalize_tags_type ensure_bytes (Some l) st =
  let l' := fresh (dom (heap st)) in
  let st1 := set_heap (<[l' := []]> (heap st)) st in
  match normalize_loop ensure_bytes (default [] (heap st1 !! l)) l' st1 with
  | (Ret _, st2) => (Ret l', st2)
  | (Raise e, st2) => (Raise e, st2)
  end.
Proof.
  unfold _normalize_tags_type. rewrite !run_bind. simpl.
  rewrite !run_bind. simpl.
  by destruct (normalize_loop _ _ _ _) as [[[]|e] st2].
Qed.

Lemma fresh_loc_None st : heap st !! fresh (dom (heap st)) = None.
Proof. apply not_elem_of_dom, is_fresh. Qed.

(** C10: [_normalize_tags_type] leaves its argument as it was, with the
    same elements in the same order, and every other list that existed; the
    list it returns is a new object.  This holds also when tags are dropped
    and when a conversion raises. *)
Theorem normalize_tags_type_no_mutation l ts st :
  heap st !! l = Some ts ->
  let r := _normalize_tags_type ensure_bytes (Some l) st in
  heap r.2 !! l = Some ts /\
  (forall l0, is_Some (heap st !! l0) -> heap r.2 !! l0 = heap st !! l0) /\
  (forall l', r.1 = Ret l' ->
     heap st !! l' = None /\ l' <> l /\ is_Some (heap r.2 !! l')).
Proof.
  intros Hl r. subst r. rewrite normalize_tags_type_unfold. cbv zeta.
  pose proof (fresh_loc_None st) as Hf.
  set (l' := fresh (dom (heap st))) in *.
  set (st1 := set_heap _ st).
  assert (Hne : forall l0, is_Some (heap st !! l0) -> l0 <> l').
  { intros l0 [x Hx] ->. congruence. }
  assert (Hframe : forall l0, is_Some (heap st !! l0) ->
            heap (normalize_loop ensure_bytes (default [] (heap st1 !! l)) l' st1).2 !! l0
            = heap st !! l0).
  { intros l0 H0. rewrite normalize_loop_frame; [|by apply Hne].
    simpl. rewrite lookup_insert_ne; [done|]. intros E. by apply (Hne l0). }
  pose proof (normalize_loop_live (default [] (heap st1 !! l)) l' l' st1) as Hlive.
  destruct (normalize_loop _ _ _ _) as [[[]|e] st2]; simpl in *.
  - split; [by rewrite Hframe|]. split; [done|].
    intros ? [= <-]. split; [done|]. split.
    + intros ->. congruence.
    + apply Hlive. by rewrite lookup_insert_eq.
  - split; [by rewrite Hframe|]. split; [done|]. done.
Qed.

Lemma coerced_no_propagation t :
  is_Some (coerced ensure_bytes t) ->
  propagates ensure_bytes t = false /\ tag_warning ensure_bytes t = [].
Proof.
  unfold coerced, propagates, tag_warning.
  destruct t as [b|u|[b|e]]; simpl;
    try (destruct (ensure_bytes _)); by intros [? ?].
Qed.

Lemma omap_coerced ts :
  Forall (fun t => is_Some (coerced ensure_bytes t)) ts ->
  Forall2 (fun t o => TStr <$> coerced ensure_bytes t = Some o) ts
    (TStr <$> omap (coerced ensure_bytes) ts) /\
  Forall (fun t => propagates ensure_bytes t = false) ts /\
  flat_map (tag_warning ensure_bytes) ts = [].
Proof.
  induction 1 as [|t ts Ht _ (IH1 & IH2 & IH3)]; [done|].
  destruct (coerced_no_propagation t Ht) as [Hp Hw].
  destruct Ht as [b Hb]. simpl. rewrite Hb, Hw, IH3. simpl.
  repeat split; constructor; by rewrite ?Hb.
Qed.

Lemma normalize_loop_app a b l' : forall st,
  normalize_loop ensure_bytes (a ++ b) l' st =
  match normalize_loop ensure_bytes a l' st with
  | (Ret _, st1) => normalize_loop ensure_bytes b l' st1
  | (Raise e, st1) => (Raise e, st1)
  end.
Proof.
  induction a as [|t a IH]; intros st; [done|].
  rewrite <- app_comm_cons, !normalize_loop_cons.
  destruct (normalize_tag ensure_bytes t st) as [[[t'|]|e] st1]; by rewrite ?IH.
Qed.

(** C4, as amended: when exactly one element of the tag list cannot be
    converted (it is not a string and [str(tag)] raises an exception) and
    every other element converts, then, if the exception derives from
    Exception, the method returns normally, logs one warning, and the new
    list holds the conversions of the other elements in their order: its
    length is one less than the length of the input.  If the exception does
    not derive from Exception, the call raises it, and no warning is
    logged. *)
Theorem normalize_tags_type_drops_one l l1 l2 e st :
  heap st !! l = Some (l1 ++ TObj (Raise e) :: l2) ->
  Forall (fun t => is_Some (coerced ensure_bytes t)) (l1 ++ l2) ->
  (is_Exception (cls e) = true ->
   exists l' st' out,
     _normalize_tags_type ensure_bytes (Some l) st = (Ret l', st') /\
     heap st' !! l' = Some out /\
     Forall2 (fun t o => TStr <$> coerced ensure_bytes t = Some o) (l1 ++ l2) out /\
     length out = length (l1 ++ TObj (Raise e) :: l2) - 1 /\
     log_warning st' = log_warning st ++ [tag_str_warning] /\
     aggregator st' = aggregator st) /\
  (is_Exception (cls e) = false ->
   exists st',
     _normalize_tags_type ensure_bytes (Some l) st = (Raise e, st') /\
     log_warning st' = log_warning st /\
     aggregator st' = aggregator st).
Proof.
  intros Hl Hok. split; intros He; cycle 1.
  { rewrite normalize_tags_type_unfold. cbv zeta.
    pose proof (fresh_loc_None st) as Hf.
    set (l' := fresh (dom (heap st))) in *.
    assert (Hne : l <> l') by (intros ->; congruence).
    simpl. rewrite lookup_insert_ne, Hl; [|done]. simpl.
    apply Forall_app in Hok as [Hok1 _].
    destruct (omap_coerced l1 Hok1) as (_ & P1 & W1).
    rewrite normalize_loop_app.
    erewrite normalize_loop_spec; [|by simpl; rewrite lookup_insert_eq|done].
    rewrite normalize_loop_cons. unfold normalize_tag, try_except.
    rewrite run_bind. unfold lift. cbn iota beta. cbn [cls]. rewrite He.
    eexists. split; [reflexivity|].
    cbn [heap set_heap set_log log_warning aggregator].
    by rewrite W1, app_nil_r. }
  rewrite normalize_tags_type_unfold. cbv zeta.
  pose proof (fresh_loc_None st) as Hf.
  set (l' := fresh (dom (heap st))) in *.
  assert (Hne : l <> l') by (intros ->; congruence).
  simpl. rewrite lookup_insert_ne, Hl; [|done]. simpl.
  apply Forall_app in Hok as [Hok1 Hok2].
  destruct (omap_coerced l1 Hok1) as (F1 & P1 & W1).
  destruct (omap_coerced l2 Hok2) as (F2 & P2 & W2).
  erewrite normalize_loop_spec; [|by simpl; rewrite lookup_insert_eq|].
  2:{ apply Forall_app. split; [done|]. constructor; [|done]. simpl. by rewrite He. }
  do 3 eexists. split; [reflexivity|].
  cbn [heap set_heap set_log log_warning aggregator app].
  rewrite lookup_insert_eq.
  assert (Hout : omap (coerced ensure_bytes) (l1 ++ TObj (Raise e) :: l2) =
                 omap (coerced ensure_bytes) (l1 ++ l2)).
  { by rewrite !omap_app. }
  assert (Hw : flat_map (tag_warning ensure_bytes) (l1 ++ TObj (Raise e) :: l2) =
               [tag_str_warning]).
  { rewrite flat_map_app. cbn [flat_map]. by rewrite W1, W2. }
  rewrite Hout, Hw, omap_app, fmap_app.
  pose proof (Forall2_app F1 F2) as F.
  split; [done|]. split; [exact F|]. split; [|done].
  apply Forall2_length in F. rewrite <- F, !length_app. cbn [length]. lia.
Qed.

End TagFacts.

(** The theorem of C4 on [tags0], whose second element cannot be converted. *)
Lemma normalize_tags_type_drops_one_witness :
  heap state1 !! 0 = Some ([TStr (str "env:prod")] ++ TObj (Raise value_error) :: [TObj (Ret (str "42"))]) /\
  Forall (fun t => is_Some (coerced ensure_bytes0 t))
    ([TStr (str "env:prod")] ++ [TObj (Ret (str "42"))]) /\
  is_Exception (cls value_error) = true /\
  exists l' st' out,
    _normalize_tags_type ensure_bytes0 (Some 0) state1 = (Ret l', st') /\
    heap st' !! l' = Some out /\
    Forall2 (fun t o => TStr <$> coerced ensure_bytes0 t = Some o)
      ([TStr (str "env:prod")] ++ [TObj (Ret (str "42"))]) out /\
    length out = length ([TStr (str "env:prod")] ++ TObj (Raise value_error) :: [TObj (Ret (str "42"))]) - 1 /\
    log_warning st' = log_warning state1 ++ [tag_str_warning] /\
    aggregator st' = aggregator state1.
Proof.
  assert (Hok : Forall (fun t => is_Some (coerced ensure_bytes0 t))
                  ([TStr (str "env:prod")] ++ [TObj (Ret (str "42"))]))
    by (repeat constructor; eexists; reflexivity).
  split; [reflexivity|]. split; [exact Hok|]. split; [reflexivity|].
  exact (proj1 (normalize_tags_type_drops_one ensure_bytes0 0
                  [TStr (str "env:prod")] [TObj (Ret (str "42"))] value_error state1
                  eq_refl Hok) eq_refl).
Defined.

(** C4, as stated, fails: the second element of [tags1] is not a string
    and cannot be converted, its [__str__] raising a KeyboardInterrupt; the
    call raises it without a warning and returns no list, and the
    submission of a metric with these tags fails as a whole. *)
Lemma normalize_tags_type_fails_whole :
  heap state2 !! 0 = Some tags1 /\
  coerced ensure_bytes0 (TObj (Raise keyboard_interrupt)) = None /\
  (_normalize_tags_type ensure_bytes0 (Some 0) state2).1 = Raise keyboard_interrupt /\
  log_warning (_normalize_tags_type ensure_bytes0 (Some 0) state2).2 = [] /\
  (gauge ensure_bytes0 (str "disk.used") (Some (Ret (SpecFloat.S754_zero false)))
     (Some 0) None None state2).1 = Raise keyboard_interrupt /\
  aggregator
    (gauge ensure_bytes0 (str "disk.used") (Some (Ret (SpecFloat.S754_zero false)))
       (Some 0) None None state2).2 = [].
Proof. vm_compute. done. Qed.

(** The theorem of C10 on the same list. *)
Lemma normalize_tags_type_no_mutation_witness :
  heap state1 !! 0 = Some tags0 /\
  let r := _normalize_tags_type ensure_bytes0 (Some 0) state1 in
  heap r.2 !! 0 = Some tags0 /\
  (forall l0, is_Some (heap state1 !! l0) -> heap r.2 !! l0 = heap state1 !! l0) /\
  (forall l', r.1 = Ret l' ->
     heap state1 !! l' = None /\ l' <> 0 /\ is_Some (heap r.2 !! l')).
Proof.
  split; [reflexivity|].
  apply (normalize_tags_type_no_mutation ensure_bytes0 0 tags0 state1).
  reflexivity.
Defined.

Section MetricFacts.
Variable ensure_bytes : tag -> outcome bytes.

Lemma log_deprecation_aggregator key st :
  aggregator (_log_deprecation key st).2 = aggregator st.
Proof.
  unfold _log_deprecation. by destruct (_deprecations st !! key) as [[[] msg]|].
Qed.

(** C5: with the value None, [_submit_metric] returns at once and leaves
    the whole state as it was, for every metric type; so do gauge, count,
    monotonic_count, rate, histogram and historate, and increment and
    decrement submit nothing to the aggregator. *)
Theorem submit_metric_none mt name tags hostname device_name st :
  _submit_metric ensure_bytes mt name None tags hostname device_name st = (Ret tt, st) /\
  gauge ensure_bytes name None tags hostname device_name st = (Ret tt, st) /\
  count ensure_bytes name None tags hostname device_name st = (Ret tt, st) /\
  monotonic_count ensure_bytes name None tags hostname device_name st = (Ret tt, st) /\
  rate ensure_bytes name None tags hostname device_name st = (Ret tt, st) /\
  histogram ensure_bytes name None tags hostname device_name st = (Ret tt, st) /\
  historate ensure_bytes name None tags hostname device_name st = (Ret tt, st) /\
  aggregator (increment ensure_bytes name None tags hostname device_name st).2
    = aggregator st /\
  aggregator (decrement ensure_bytes name None tags hostname device_name st).2
    = aggregator st.
Proof.
  repeat split; try reflexivity.
  - unfold increment. rewrite run_bind.
    pose proof (log_deprecation_aggregator "increment" st) as H.
    by destruct (_log_deprecation "increment" st) as [[[]|e] st1].
  - unfold decrement. rewrite run_bind.
    pose proof (log_deprecation_aggregator "increment" st) as H.
    by destruct (_log_deprecation "increment" st) as [[[]|e] st1].
Qed.

End MetricFacts.

Section EventFacts.
Variable ensure_bytes : tag -> outcome bytes.
Variable py_int : value -> outcome Z.
Variable py_str : value -> outcome bytes.

Lemma encode_fields_unencodable items : forall fields st,
  (exists k v, (k, v) ∈ items /\ unencodable v = true) ->
  match encode_fields items fields st with
  | (Ret (_, true), _) => False
  | (Ret (_, false), st') =>
      aggregator st' = aggregator st /\
      exists k v, (k, v) ∈ items /\ unencodable v = true /\
        log_warning st' = log_warning st ++ [event_encoding_warning k]
  | (Raise _, st') => aggregator st' = aggregator st
  end.
Proof.
  induction items as [|[key v] rest IH]; intros fields st (k & v0 & Hin & Hv).
  - by apply elem_of_nil in Hin.
  - assert (Hrest : unencodable v = false ->
                    exists k v, (k, v) ∈ rest /\ unencodable v = true).
    { intros Hf. apply elem_of_cons in Hin as [[= -> ->]|Hin]; [congruence|eauto]. }
    assert (Hmono : forall fields' st,
              match encode_fields rest fields' st with
              | (Ret (_, true), _) => False
              | (Ret (_, false), st') =>
                  aggregator st' = aggregator st /\
                  exists k v, (k, v) ∈ rest /\ unencodable v = true /\
                    log_warning st' = log_warning st ++ [event_encoding_warning k]
              | (Raise _, st') => aggregator st' = aggregator st
              end ->
              match encode_fields rest fields' st with
              | (Ret (_, true), _) => False
              | (Ret (_, false), st') =>
                  aggregator st' = aggregator st /\
                  exists k' v', (k', v') ∈ (key, v) :: rest /\ unencodable v' = true /\
                    log_warning st' = log_warning st ++ [event_encoding_warning k']
              | (Raise _, st') => aggregator st' = aggregator st
              end).
    { intros fields' st0. destruct (encode_fields rest fields' st0) as [[[f []]|e] st1]; try done.
      intros [Ha (k1 & v1 & H1 & H2 & H3)]. split; [done|].
      exists k1, v1. split; [by apply elem_of_cons; right | done]. }
    cbn [encode_fields].
    destruct v as [|z|b|u [b|e]];
      try exact (Hmono _ _ (IH _ _ (Hrest eq_refl))).
    rewrite run_bind. unfold try_except. simpl.
    destruct (is_UnicodeError (cls e)) eqn:He; simpl; [|done].
    split; [done|]. exists key, (VUnicode u (Raise e)).
    split; [by apply elem_of_cons; left | done].
Qed.

(** C3, as amended: when a field of the event is a unicode object whose
    encoding to utf-8 raises a UnicodeError, nothing is submitted to the
    aggregator; when the method returns, it has logged one warning, which
    names such a field. *)
Theorem event_unencodable_not_submitted ev st k v :
  ev_fields ev !! k = Some v ->
  unencodable v = true ->
  let r := event ensure_bytes py_int py_str ev st in
  aggregator r.2 = aggregator st /\
  (forall ev', r.1 = Ret ev' ->
     exists k' v',
       ev_fields ev !! k' = Some v' /\ unencodable v' = true /\
       log_warning r.2 = log_warning st ++ [event_encoding_warning k']).
Proof.
  intros Hk Hv r. subst r. unfold event. rewrite run_bind.
  pose proof (encode_fields_unencodable (map_to_list (ev_fields ev))
                (ev_fields ev) st) as H.
  destruct (encode_fields _ _ st) as [[[f []]|e] st1]; simpl.
  - destruct H. exists k, v. split; [by apply elem_of_map_to_list | done].
  - destruct H as [Ha (k' & v' & H1 & H2 & H3)].
    { exists k, v. split; [by apply elem_of_map_to_list | done]. }
    split; [done|]. intros ev' _. exists k', v'.
    split; [by apply elem_of_map_to_list | done].
  - split; [|done]. apply H. exists k, v.
    split; [by apply elem_of_map_to_list | done].
Qed.

End EventFacts.

(** The theorem of C3 on [event0]. *)
Lemma event_unencodable_not_submitted_witness :
  ev_fields event0 !! "msg_title"%string = Some (VUnicode [233%N] (Raise unicode_error)) /\
  unencodable (VUnicode [233%N] (Raise unicode_error)) = true /\
  let r := event ensure_bytes0 (fun _ => Ret 0%Z) (fun _ => Ret []) event0 state0 in
  aggregator r.2 = aggregator state0 /\
  (forall ev', r.1 = Ret ev' ->
     exists k' v',
       ev_fields event0 !! k' = Some v' /\ unencodable v' = true /\
       log_warning r.2 = log_warning state0 ++ [event_encoding_warning k']).
Proof.
  split; [reflexivity|]. split; [reflexivity|].
  apply (event_unencodable_not_submitted ensure_bytes0 (fun _ => Ret 0%Z)
           (fun _ => Ret []) event0 state0 "msg_title"%string
           (VUnicode [233%N] (Raise unicode_error))); reflexivity.
Defined.

(** C3, as stated, fails: the title of this event cannot be encoded, and the
    event is not submitted: the method logs the warning and returns. *)
Lemma event_dropped_whole :
  let r := event ensure_bytes0 (fun _ => Ret 0%Z) (fun _ => Ret []) event0 state0 in
  aggregator r.2 = [] /\
  log_warning r.2 = [event_encoding_warning "msg_title"].
Proof. vm_compute. done. Qed.

Section RunFacts.
Variable instance : Type.
Variable check : instance -> M unit.
Variable deepcopy : instance -> outcome instance.
Variable json_dumps : json -> outcome bytes.
Variable index_error_traceback : bytes.

(** C2, as amended: when the check body raises an exception that derives
    from Exception, and [str(e)] and [json.dumps] return, [run] does not
    propagate it: it returns the serialization of the one-element list
    holding the mapping of 'message' to [str(e)] and of 'traceback' to the
    formatted traceback.  When the exception does not derive from Exception
    (a KeyboardInterrupt, a SystemExit), [run] propagates it. *)
Theorem run_catches_Exception i rest i' st e st' :
  deepcopy i = Ret i' ->
  check i' st = (Raise e, st') ->
  (is_Exception (cls e) = true ->
   forall message out,
     to_str e = inl message ->
     json_dumps (JList [JDict {[ "message"%string := JStr message;
                                 "traceback"%string := JStr (format_exc e) ]}])
       = Ret out ->
     run instance check deepcopy json_dumps index_error_traceback (i :: rest) st
     = (Ret out, st')) /\
  (is_Exception (cls e) = false ->
   run instance check deepcopy json_dumps index_error_traceback (i :: rest) st
   = (Raise e, st')).
Proof.
  intros Hd Hc.
  unfold run, try_except, mbind, M_bind, mret, M_ret, lift, str_exc.
  cbn beta iota. rewrite Hd. cbn beta iota. rewrite Hc. split.
  - intros He message out Hs Hj. rewrite He, Hs. cbn beta iota. by rewrite Hj.
  - intros He. by rewrite He.
Qed.

End RunFacts.

(** The theorem of C2 on a check that raises a ValueError, and on one that
    raises a SystemExit. *)
Lemma run_catches_Exception_witness :
  run () (fun _ => raise value_error) Ret json_dumps0 [] [()] state0
  = (Ret (str "[{message: no string form, traceback: Traceback (most recent call last): ...}]"),
     state0) /\
  run () (fun _ => raise system_exit) Ret json_dumps0 [] [()] state0
  = (Raise system_exit, state0).
Proof.
  split.
  - apply (proj1 (run_catches_Exception () (fun _ => raise value_error) Ret
                    json_dumps0 [] () [] () state0 value_error state0
                    eq_refl eq_refl) eq_refl
             (str "no string form")
             (str "[{message: no string form, traceback: Traceback (most recent call last): ...}]"));
      reflexivity.
  - exact (proj2 (run_catches_Exception () (fun _ => raise system_exit) Ret
                    json_dumps0 [] () [] () state0 system_exit state0
                    eq_refl eq_refl) eq_refl).
Defined.

(** C2, as stated, fails: a KeyboardInterrupt raised by the check is not an
    Exception, and [run] propagates it; and when [str(e)] raises in the
    handler, that exception leaves [run]. *)
Lemma run_propagates_exceptions :
  run () (fun _ => raise keyboard_interrupt) Ret json_dumps0 [] [()] state0
  = (Raise keyboard_interrupt, state0) /\
  run () (fun _ => raise unicode_message_error) Ret json_dumps0 [] [()] state0
  = (Raise unicode_error, state0).
Proof. split; reflexivity. Qed.

(** * More about the check object *)

(** ** What the methods leave as it was *)

Lemma preserved_refl st : preserved st st.
Proof. done. Qed.

Lemma preserved_trans st1 st2 st3 :
  preserved st1 st2 -> preserved st2 st3 -> preserved st1 st3.
Proof.
  intros (H1 & H2 & H3) (K1 & K2 & K3). split; [|split; congruence].
  intros l0 Hl. rewrite K1, H1; [done..|]. by rewrite H1.
Qed.

Lemma preserved_fresh st st' l :
  preserved st st' -> heap st' !! l = None -> heap st !! l = None.
Proof.
  intros (H1 & _) Hn. destruct (heap st !! l) as [x|] eqn:E; [|done].
  rewrite H1 in Hn; [congruence | by rewrite E].
Qed.

Lemma preserved_heap st st' :
  heap st' = heap st -> check_id st' = check_id st ->
  aggregator st' = aggregator st -> preserved st st'.
Proof. intros H1 H2 H3. split; [|done]. intros l0 _. by rewrite H1. Qed.

Lemma preserved_insert st st' l x :
  preserved st st' -> heap st !! l = None ->
  preserved st (set_heap (<[l := x]> (heap st')) st').
Proof.
  intros (H1 & H2 & H3) Hn. split; [|done]. intros l0 [y Hy]. simpl.
  rewrite lookup_insert_ne; [by rewrite H1, Hy|]. intros ->. congruence.
Qed.

Lemma log_deprecation_preserved key st :
  preserved st (_log_deprecation key st).2.
Proof.
  unfold _log_deprecation. by destruct (_deprecations st !! key) as [[[] msg]|].
Qed.

Section CheckFacts.
Variable ensure_bytes : tag -> outcome bytes.

Lemma normalize_tag_check_id t st :
  check_id (normalize_tag ensure_bytes t st).2 = check_id st.
Proof.
  unfold normalize_tag, try_except.
  destruct t as [b|u|[b|e]]; simpl;
    repeat match goal with
    | |- context [ensure_bytes ?t] => destruct (ensure_bytes t); simpl
    | |- context [if ?b then _ else _] => destruct b; simpl
    end; done.
Qed.

Lemma normalize_tag_str t st t' st' :
  normalize_tag ensure_bytes t st = (Ret (Some t'), st') -> is_str t' = true.
Proof.
  unfold normalize_tag, try_except.
  destruct t as [b|u|[b|e]]; simpl;
    repeat match goal with
    | |- context [ensure_bytes ?t] => destruct (ensure_bytes t); simpl
    | |- context [if ?b then _ else _] => destruct b; simpl
    end; by intros [= <- <-].
Qed.

Lemma normalize_loop_check_id ts l' : forall st,
  check_id (normalize_loop ensure_bytes ts l' st).2 = check_id st.
Proof.
  induction ts as [|t ts IH]; intros st; [done|].
  rewrite normalize_loop_cons.
  pose proof (normalize_tag_check_id t st) as Hh.
  destruct (normalize_tag ensure_bytes t st) as [[[t'|]|e] st1]; simpl in *.
  - by rewrite IH.
  - by rewrite IH.
  - done.
Qed.

Lemma normalize_loop_strs ts l' : forall st acc,
  heap st !! l' = Some acc ->
  Forall (fun t => is_str t = true) acc ->
  exists acc', heap (normalize_loop ensure_bytes ts l' st).2 !! l' = Some acc' /\
    Forall (fun t => is_str t = true) acc'.
Proof.
  induction ts as [|t ts IH]; intros st acc Hl Ha; [by exists acc|].
  rewrite normalize_loop_cons.
  pose proof (normalize_tag_heap ensure_bytes t st) as Hh.
  pose proof (normalize_tag_str t st) as Hs.
  destruct (normalize_tag ensure_bytes t st) as [[[t'|]|e] st1]; simpl in *.
  - apply (IH _ (acc ++ [t'])).
    + simpl. by rewrite Hh, Hl, lookup_insert_eq.
    + apply Forall_app. split; [done|]. constructor; [|done]. by eapply Hs.
  - apply (IH _ acc); [by rewrite Hh | done].
  - exists acc. by rewrite Hh.
Qed.

Lemma normalize_tags_type_run tags st :
  _normalize_tags_type ensure_bytes tags st =
  let l' := fresh (dom (heap st)) in
  let st1 := set_heap (<[l' := []]> (heap st)) st in
  match normalize_loop ensure_bytes (tags_content st tags) l' st1 with
  | (Ret _, st2) => (Ret l', st2)
  | (Raise e, st2) => (Raise e, st2)
  end.
Proof.
  destruct tags as [l|]; [|done].
  rewrite normalize_tags_type_unfold. cbv zeta. cbn [tags_content heap set_heap].
  destruct (decide (l = fresh (dom (heap st)))) as [->|Hne].
  - by rewrite lookup_insert_eq, fresh_loc_None.
  - by rewrite lookup_insert_ne.
Qed.

(** [_normalize_tags_type] touches nothing but the list it returns, which is
    new and holds strings. *)
Lemma normalize_tags_type_inv tags st :
  let r := _normalize_tags_type ensure_bytes tags st in
  preserved st r.2 /\
  forall l', r.1 = Ret l' ->
    heap st !! l' = None /\
    exists out, heap r.2 !! l' = Some out /\ Forall (fun t => is_str t = true) out.
Proof.
  intros r. subst r. rewrite normalize_tags_type_run. cbv zeta.
  pose proof (fresh_loc_None st) as Hf.
  set (l' := fresh (dom (heap st))) in *.
  set (st1 := set_heap _ st).
  set (ts := tags_content st tags).
  pose proof (normalize_loop_frame ensure_bytes ts l') as Hframe.
  pose proof (normalize_loop_check_id ts l' st1) as Hc.
  pose proof (normalize_loop_aggregator ensure_bytes ts l' st1) as Ha.
  destruct (normalize_loop_strs ts l' st1 []) as (out & Ho & Hs);
    [by simpl; rewrite lookup_insert_eq | done |].
  assert (Hp : preserved st (normalize_loop ensure_bytes ts l' st1).2).
  { split; [|done]. intros l0 [x Hx].
    assert (l0 <> l') by (intros ->; congruence).
    rewrite Hframe; [|done]. simpl. by rewrite lookup_insert_ne. }
  destruct (normalize_loop _ _ _ _) as [[[]|e] st2]; simpl in *.
  - split; [done|]. intros ? [= <-]. split; [done|]. by exists out.
  - done.
Qed.

(** [_normalize_tags] likewise: the copy it makes and the list it returns
    are new objects. *)
Lemma normalize_tags_inv tags device_name st :
  let r := _normalize_tags ensure_bytes tags device_name st in
  preserved st r.2 /\
  forall l', r.1 = Ret l' ->
    heap st !! l' = None /\
    exists out, heap r.2 !! l' = Some out /\ Forall (fun t => is_str t = true) out.
Proof.
  intros r. subst r. unfold _normalize_tags. rewrite run_bind.
  pose proof (fresh_loc_None st) as Hf.
  set (l1 := fresh (dom (heap st))) in *.
  assert (E1 : (match tags with
                | Some l => ts ← read_list l; new_list ts
                | None => new_list []
                end) st =
               (Ret l1, set_heap (<[l1 := tags_content st tags]> (heap st)) st)).
  { by destruct tags. }
  rewrite E1. clear E1.
  set (st1 := set_heap _ st).
  assert (P1 : preserved st st1) by by apply preserved_insert.
  rewrite run_bind.
  assert (E2 : exists st2, preserved st st2 /\
            ((match device_name with
              | Some (c :: d) =>
                  _log_deprecation "device_name";;
                  append l1 (TStr (str "device:" ++ c :: d))
              | _ => mret tt
              end) st1 = (Ret tt, st2) \/
             exists e,
             (match device_name with
              | Some (c :: d) =>
                  _log_deprecation "device_name";;
                  append l1 (TStr (str "device:" ++ c :: d))
              | _ => mret tt
              end) st1 = (Raise e, st2))).
  { destruct device_name as [[|c d]|]; try (exists st1; split; [done|by left]).
    rewrite run_bind.
    pose proof (log_deprecation_preserved "device_name" st1) as P2.
    destruct (_log_deprecation "device_name" st1) as [[[]|e] st2]; simpl in P2.
    - eexists. split; [|left; reflexivity].
      apply preserved_insert; [|done]. by apply (preserved_trans _ st1).
    - exists st2. split; [by apply (preserved_trans _ st1)|]. right. by exists e. }
  destruct E2 as (st2 & P2 & [E2|[e E2]]); rewrite E2; [|done].
  pose proof (normalize_tags_type_inv (Some l1) st2) as [P3 H3].
  cbv zeta in *.
  split; [by apply (preserved_trans _ st2)|].
  intros l' Hl'. destruct (H3 l' Hl') as [Hn Hout].
  split; [by apply (preserved_fresh _ st2)|done].
Qed.

Lemma tag_coerced_or_warned t :
  propagates ensure_bytes t = false ->
  length (option_list (coerced ensure_bytes t)) + length (tag_warning ensure_bytes t) = 1.
Proof.
  unfold propagates, coerced, tag_warning.
  destruct t as [b|u|[b|e]]; simpl; try (destruct (ensure_bytes _)); done.
Qed.

Lemma normalize_tags_type_result tags st :
  Forall (fun t => propagates ensure_bytes t = false) (tags_content st tags) ->
  _normalize_tags_type ensure_bytes tags st =
  (Ret (fresh (dom (heap st))),
   set_heap
     (<[fresh (dom (heap st)) :=
          TStr <$> omap (coerced ensure_bytes) (tags_content st tags)]> (heap st))
     (set_log
        (log_warning st ++ flat_map (tag_warning ensure_bytes) (tags_content st tags))
        st)).
Proof.
  intros Hp. rewrite normalize_tags_type_run. cbv zeta.
  erewrite normalize_loop_spec; [|by simpl; rewrite lookup_insert_eq|done].
  cbn [heap set_heap set_log log_warning app].
  by rewrite insert_insert_eq.
Qed.

(** When no conversion raises past the handlers of the loop,
    [_normalize_tags_type] returns a new list that holds, in their order,
    the conversions of the tags that convert, and has logged one warning
    for each of the others; the rest of the state is as before. *)
Theorem normalize_tags_type_converts tags st :
  Forall (fun t => propagates ensure_bytes t = false) (tags_content st tags) ->
  exists l',
    heap st !! l' = None /\
    _normalize_tags_type ensure_bytes tags st =
    (Ret l',
     set_heap (<[l' := TStr <$> omap (coerced ensure_bytes) (tags_content st tags)]> (heap st))
       (set_log (log_warning st ++ flat_map (tag_warning ensure_bytes) (tags_content st tags)) st)) /\
    length (omap (coerced ensure_bytes) (tags_content st tags)) +
    length (flat_map (tag_warning ensure_bytes) (tags_content st tags)) =
    length (tags_content st tags).
Proof.
  intros Hp. exists (fresh (dom (heap st))).
  split; [apply fresh_loc_None|]. split.
  - by apply normalize_tags_type_result.
  - induction Hp as [|t ts Ht _ IH]; [done|].
    pose proof (tag_coerced_or_warned t Ht) as H1.
    unfold omap in *. simpl in *. rewrite length_app.
    destruct (coerced ensure_bytes t); simpl in *; lia.
Qed.

(** With a non-empty [device_name], [_normalize_tags] returns a new list
    with the conversions of the tags followed by that of the tag
    'device:<device_name>', leaves the list it was given and every other
    list as they were, and logs the deprecation notice of 'device_name'
    unless it was logged before. *)
Theorem normalize_tags_device tags c d st :
  is_Some (_deprecations st !! "device_name"%string) ->
  Forall (fun t => propagates ensure_bytes t = false)
    (tags_content st tags ++ device_tags (Some (c :: d))) ->
  exists l' st' (flag : bool) (msg : bytes),
    _normalize_tags ensure_bytes tags (Some (c :: d)) st = (Ret l', st') /\
    heap st !! l' = None /\
    heap st' !! l' =
      Some (TStr <$> omap (coerced ensure_bytes)
                       (tags_content st tags ++ device_tags (Some (c :: d)))) /\
    (forall l0, is_Some (heap st !! l0) -> heap st' !! l0 = heap st !! l0) /\
    _deprecations st !! "device_name"%string = Some (flag, msg) /\
    _deprecations st' !! "device_name"%string = Some (true, msg) /\
    log_warning st' =
      log_warning st ++ (if flag then [] else [msg]) ++
      flat_map (tag_warning ensure_bytes)
        (tags_content st tags ++ device_tags (Some (c :: d))).
Proof.
  intros [fm Hk] Hp. destruct fm as [flag msg].
  pose proof (normalize_tags_inv tags (Some (c :: d)) st) as [Pr Hfresh].
  cbv zeta in *. revert Pr Hfresh.
  unfold _normalize_tags. rewrite run_bind.
  pose proof (fresh_loc_None st) as Hf.
  set (l1 := fresh (dom (heap st))) in *.
  assert (E1 : (match tags with
                | Some l => ts ← read_list l; new_list ts
                | None => new_list []
                end) st =
               (Ret l1, set_heap (<[l1 := tags_content st tags]> (heap st)) st)).
  { by destruct tags. }
  rewrite E1. clear E1. rewrite !run_bind.
  set (dev := TStr (str "device:" ++ c :: d)).
  set (ts := tags_content st tags) in *.
  assert (E2 : exists st2,
            (_log_deprecation "device_name" (set_heap (<[l1 := ts]> (heap st)) st))
            = (Ret tt, st2) /\
            heap st2 = <[l1 := ts]> (heap st) /\
            _deprecations st2 !! "device_name"%string = Some (true, msg) /\
            log_warning st2 = log_warning st ++ (if flag then [] else [msg])).
  { unfold _log_deprecation. cbn [_deprecations set_heap]. rewrite Hk.
    destruct flag; eexists; (split; [reflexivity|]); simpl.
    - by rewrite app_nil_r.
    - by rewrite lookup_insert_eq. }
  destruct E2 as (st2 & E2 & Hh2 & Hd2 & Hl2). rewrite E2.
  cbn [append]. cbn beta iota. rewrite Hh2, lookup_insert_eq, insert_insert_eq.
  cbn [default from_option id].
  set (st3 := set_heap _ st2).
  pose proof (normalize_tags_type_result (Some l1) st3) as ER.
  set (l' := fresh (dom (heap st3))) in ER.
  revert ER. cbn [tags_content st3 heap set_heap].
  rewrite lookup_insert_eq. cbn [default from_option id]. intros ER.
  rewrite ER by exact Hp.
  cbn [fst snd]. intros Pr Hfresh.
  eexists l', _, flag, msg. split; [reflexivity|].
  cbn [heap set_heap set_log log_warning _deprecations].
  split; [by apply Hfresh|].
  split; [by rewrite lookup_insert_eq|].
  split; [apply Pr|]. split; [done|]. split; [done|].
  subst st3. cbn [log_warning set_heap]. by rewrite Hl2, <- app_assoc.
Qed.

End CheckFacts.

(** A notice is logged at most once per key: after a first call of
    [_log_deprecation], further calls with the key change nothing, and no
    call touches the entry of another key. *)
Theorem log_deprecation_once key st n :
  Nat.iter (S n) (fun s => (_log_deprecation key s).2) st
  = (_log_deprecation key st).2 /\
  length (log_warning (Nat.iter n (fun s => (_log_deprecation key s).2) st))
  <= S (length (log_warning st)) /\
  forall key', key' <> key ->
    _deprecations (Nat.iter n (fun s => (_log_deprecation key s).2) st) !! key'
    = _deprecations st !! key'.
Proof.
  assert (Hidem : forall s,
            (_log_deprecation key (_log_deprecation key s).2).2
            = (_log_deprecation key s).2).
  { intros s. unfold _log_deprecation at 2 3.
    destruct (_deprecations s !! key) as [[[] msg]|] eqn:E; simpl.
    - unfold _log_deprecation. by rewrite E.
    - unfold _log_deprecation. simpl. by rewrite lookup_insert_eq.
    - unfold _log_deprecation. by rewrite E. }
  assert (Hiter : forall m, Nat.iter (S m) (fun s => (_log_deprecation key s).2) st
                            = (_log_deprecation key st).2).
  { induction m as [|m IH]; [done|].
    change (Nat.iter (S (S m)) (fun s => (_log_deprecation key s).2) st)
      with ((_log_deprecation key
               (Nat.iter (S m) (fun s => (_log_deprecation key s).2) st)).2).
    by rewrite IH, Hidem. }
  split; [apply Hiter|].
  destruct n as [|m]; [split; [simpl; lia | done]|].
  rewrite Hiter. unfold _log_deprecation.
  destruct (_deprecations st !! key) as [[[] msg]|]; simpl;
    rewrite ?length_app; simpl; (split; [lia|]); intros key' Hne; try done.
  by rewrite lookup_insert_ne.
Qed.

Section SubmitFacts.
Variable ensure_bytes : tag -> outcome bytes.

(** With a value, [_submit_metric] calls the aggregator exactly once when
    it returns, with the float of the value, a list of strings as tags and
    the empty string for a hostname None, and not at all when it raises; it
    leaves every list that existed as it was. *)
Theorem submit_metric_value mt name v tags hostname device_name st :
  let r := _submit_metric ensure_bytes mt name (Some v) tags hostname device_name st in
  (forall l0, is_Some (heap st !! l0) -> heap r.2 !! l0 = heap st !! l0) /\
  match r.1 with
  | Ret _ =>
      exists x ts,
        v = Ret x /\ Forall (fun t => is_str t = true) ts /\
        aggregator r.2 =
          aggregator st ++
          [submit_metric (check_id st) mt name x ts (default [] hostname)]
  | Raise _ => aggregator r.2 = aggregator st
  end.
Proof.
  intros r. subst r. unfold _submit_metric. rewrite run_bind.
  pose proof (normalize_tags_inv ensure_bytes tags device_name st) as [P H].
  cbv zeta in *.
  destruct (_normalize_tags ensure_bytes tags device_name st) as [[l'|e] st1];
    simpl in *; [|split; apply P].
  destruct (H l' eq_refl) as (Hn & out & Ho & Hs).
  rewrite run_bind. unfold lift. destruct v as [x|e]; simpl; [|split; apply P].
  split; [apply P|]. exists x, out. rewrite Ho. simpl.
  destruct P as (_ & Pc & Pa). by rewrite Pc, Pa.
Qed.

Variable py_int : value -> outcome Z.
Variable py_str : value -> outcome bytes.

Lemma encode_fields_preserved items : forall fields st,
  preserved st (encode_fields items fields st).2.
Proof.
  induction items as [|[key v] rest IH]; intros fields st; [done|].
  cbn [encode_fields].
  destruct v as [|z|b|u [b|e]]; try apply IH.
  rewrite run_bind. unfold try_except. simpl.
  by destruct (is_UnicodeError (cls e)).
Qed.

Lemma event_tags_inv (tags : option loc) st :
  let r := (match tags with
            | Some l =>
                ts ← read_list l;
                match ts with
                | [] => mret (Some l)
                | _ => l' ← _normalize_tags_type ensure_bytes (Some l); mret (Some l')
                end
            | None => mret None
            end : M (option loc)) st in
  preserved st r.2 /\
  forall tg l, r.1 = Ret tg -> tg = Some l ->
    Forall (fun t => is_str t = true) (default [] (heap r.2 !! l)).
Proof.
  intros r. subst r.
  destruct tags as [l|]; [|split; [done|]; by intros tg l [= <-]].
  rewrite run_bind. cbn [read_list].
  destruct (default [] (heap st !! l)) as [|t ts] eqn:E.
  - split; [done|]. intros tg l0 [= <-] [= <-]. simpl. by rewrite E.
  - rewrite run_bind.
    pose proof (normalize_tags_type_inv ensure_bytes (Some l) st) as [P H].
    cbv zeta in *.
    destruct (_normalize_tags_type ensure_bytes (Some l) st) as [[l'|e] st1];
      simpl in *; [|done].
    split; [done|]. intros tg l0 [= <-] [= <-].
    destruct (H l' eq_refl) as (_ & out & Ho & Hs). by rewrite Ho.
Qed.

(** [event] calls the aggregator at most once, as its last action: not at
    all when it raises, and when it returns either not at all or once, with
    the fields and tags of the mapping it leaves, the tags being strings.
    It leaves every list that existed as it was. *)
Theorem event_submits_once ev st :
  let r := event ensure_bytes py_int py_str ev st in
  (forall l0, is_Some (heap st !! l0) -> heap r.2 !! l0 = heap st !! l0) /\
  match r.1 with
  | Ret ev' =>
      (aggregator r.2 = aggregator st /\ ev_tags ev' = ev_tags ev) \/
      (aggregator r.2 =
         aggregator st ++
         [submit_event (check_id st)
            ((fun l => default [] (heap r.2 !! l)) <$> ev_tags ev')
            (ev_fields ev')] /\
       forall l, ev_tags ev' = Some l ->
         Forall (fun t => is_str t = true) (default [] (heap r.2 !! l)))
  | Raise _ => aggregator r.2 = aggregator st
  end.
Proof.
  intros r. subst r. unfold event. rewrite run_bind.
  pose proof (encode_fields_preserved (map_to_list (ev_fields ev)) (ev_fields ev) st)
    as P1.
  destruct (encode_fields _ _ st) as [[[f []]|e] st1]; simpl in P1;
    [| split; [apply P1 | left; split; [apply P1 | done]] | split; apply P1].
  cbn [negb]. cbv iota. rewrite run_bind.
  pose proof (event_tags_inv (ev_tags ev) st1) as [P2 H2]. cbv zeta in *.
  destruct ((match ev_tags ev with
             | Some l => _
             | None => _
             end : M (option loc)) st1) as [[tg|e] st2]; simpl in P2, H2;
    [|split; apply (preserved_trans _ st1); done].
  pose proof (preserved_trans _ _ _ P1 P2) as (Ph & Pc & Pa).
  rewrite run_bind.
  destruct (get_truthy f "timestamp") as [v|];
    [rewrite run_bind; unfold lift; destruct (py_int v) as [z|e]; [|done]|];
    rewrite ?run_ret.
  all: rewrite run_bind.
  all: match goal with
       | |- context [get_truthy ?f' "aggregation_key"] =>
           destruct (get_truthy f' "aggregation_key") as [w|];
           [rewrite run_bind; unfold lift; destruct (py_str w) as [b|e]; [|done]|];
           rewrite ?run_ret
       end.
  all: rewrite run_bind.
  all: destruct tg as [l|]; rewrite ?run_bind; cbn [read_list]; rewrite ?run_ret;
       rewrite run_bind; cbn [call_aggregator]; rewrite run_ret;
       cbn [fst snd heap set_aggregator aggregator ev_tags ev_fields];
       (split; [exact Ph|]); right; rewrite Pc, Pa; (split; [done|]);
       intros l0 [= <-] || (intros l0; done); by eapply H2.
Qed.

End SubmitFacts.

Section EncodeFacts.
Variable ensure_bytes : tag -> outcome bytes.
Variable py_int : value -> outcome Z.
Variable py_str : value -> outcome bytes.

Lemma encode_fields_encodable items : forall fields st,
  Forall (fun kv => encodable kv.2 = true) items ->
  encode_fields items fields st =
  (Ret (foldl (fun f kv =>
                 match kv.2 with
                 | VUnicode _ (Ret b) => <[kv.1 := VStr b]> f
                 | _ => f
                 end) fields items, true), st).
Proof.
  induction items as [|[key v] rest IH]; intros fields st Hall; [done|].
  apply Forall_cons in Hall as [Hv Hall]. cbn [encode_fields foldl fst snd].
  destruct v as [|z|b|u [b|e]]; try done; by apply IH.
Qed.

Lemma foldl_encoded_lookup items : forall (fields : gmap string value) k,
  NoDup items.*1 ->
  foldl (fun f kv =>
           match kv.2 with
           | VUnicode _ (Ret b) => <[kv.1 := VStr b]> f
           | _ => f
           end) fields items !! k =
  match (list_to_map items : gmap string value) !! k with
  | Some (VUnicode _ (Ret b)) => Some (VStr b)
  | _ => fields !! k
  end.
Proof.
  induction items as [|[key v] rest IH]; intros fields k Hnd; [done|].
  rewrite fmap_cons in Hnd. apply NoDup_cons in Hnd as [Hnin Hnd].
  rewrite list_to_map_cons. cbn [foldl fst snd]. rewrite IH; [|done].
  destruct (decide (k = key)) as [->|Hne].
  - rewrite lookup_insert_eq.
    rewrite (not_elem_of_list_to_map_1 rest key Hnin).
    destruct v as [|z|b|u [b|e]]; try done. by rewrite lookup_insert_eq.
  - rewrite lookup_insert_ne; [|done].
    destruct (list_to_map rest !! k) as [[|z|b|u [b|e]]|];
      destruct v as [|z'|b'|u' [b'|e']]; try done;
      by rewrite lookup_insert_ne.
Qed.

Lemma encode_fields_fmap (fields : gmap string value) st :
  map_Forall (fun _ v => encodable v = true) fields ->
  encode_fields (map_to_list fields) fields st = (Ret (encoded <$> fields, true), st).
Proof.
  intros Hall. rewrite encode_fields_encodable.
  - f_equal. f_equal. f_equal. apply map_eq. intros k.
    rewrite foldl_encoded_lookup; [|apply NoDup_fst_map_to_list].
    rewrite list_to_map_to_list, lookup_fmap.
    by destruct (fields !! k) as [[|z|b|u [b|e]]|].
  - apply Forall_forall. intros [k v] Hin. apply elem_of_map_to_list in Hin.
    by apply (Hall k v).
Qed.

Lemma encoded_not_unicode v u e :
  encodable v = true -> encoded v <> VUnicode u e.
Proof. by destruct v as [|z|b|u' [b|e']]. Qed.

Lemma insert_not_unicode (g : gmap string value) key v :
  (forall k u e, g !! k <> Some (VUnicode u e)) ->
  (forall u e, v <> VUnicode u e) ->
  forall k u e, <[key := v]> g !! k <> Some (VUnicode u e).
Proof.
  intros Hg Hv k u e. destruct (decide (k = key)) as [->|Hne].
  - rewrite lookup_insert_eq. intros [= H]. by apply (Hv u e).
  - by rewrite lookup_insert_ne.
Qed.

(** When every unicode field of the event encodes and [event] returns, it
    has submitted the event once, with each unicode field replaced by its
    utf-8 encoding, a true 'timestamp' replaced by its int and a true
    'aggregation_key' by its str, and the other fields as they were: no
    field of the submitted mapping is a unicode object. *)
Theorem event_encodes_fields ev st ev' st' :
  map_Forall (fun _ v => encodable v = true) (ev_fields ev) ->
  event ensure_bytes py_int py_str ev st = (Ret ev', st') ->
  let f := encoded <$> ev_fields ev in
  aggregator st' =
    aggregator st ++
    [submit_event (check_id st)
       ((fun l => default [] (heap st' !! l)) <$> ev_tags ev') (ev_fields ev')] /\
  (forall k, k <> "timestamp"%string -> k <> "aggregation_key"%string ->
     ev_fields ev' !! k = f !! k) /\
  match get_truthy f "timestamp" with
  | Some v => exists z, py_int v = Ret z /\
                ev_fields ev' !! "timestamp"%string = Some (VInt z)
  | None => ev_fields ev' !! "timestamp"%string = f !! "timestamp"%string
  end /\
  match get_truthy f "aggregation_key" with
  | Some v => exists b, py_str v = Ret b /\
                ev_fields ev' !! "aggregation_key"%string = Some (VStr b)
  | None => ev_fields ev' !! "aggregation_key"%string = f !! "aggregation_key"%string
  end /\
  (forall k u e, ev_fields ev' !! k <> Some (VUnicode u e)).
Proof.
  intros Hall. unfold event. rewrite run_bind, encode_fields_fmap; [|done].
  cbn [negb]. cbv iota. rewrite run_bind.
  pose proof (event_tags_inv ensure_bytes (ev_tags ev) st) as [P2 _]. cbv zeta in *.
  destruct ((match ev_tags ev with
             | Some l => _
             | None => _
             end : M (option loc)) st) as [[tg|e] st2]; simpl in P2; [|done].
  destruct P2 as (_ & Pc & Pa).
  set (f := encoded <$> ev_fields ev).
  assert (Hf : forall k u e, f !! k <> Some (VUnicode u e)).
  { intros k u e. unfold f. rewrite lookup_fmap.
    destruct (ev_fields ev !! k) as [v|] eqn:E; [|done]. simpl. intros [= H].
    by apply (encoded_not_unicode v u e (Hall k v E)). }
  assert (Hta : forall z,
            get_truthy (<["timestamp"%string := VInt z]> f) "aggregation_key"
            = get_truthy f "aggregation_key").
  { intros z. unfold get_truthy. by rewrite lookup_insert_ne. }
  rewrite run_bind.
  destruct (get_truthy f "timestamp") as [v|] eqn:Et;
    [rewrite run_bind; unfold lift; destruct (py_int v) as [z|e] eqn:Ez; [|done];
     rewrite run_ret, run_bind, Hta
    |rewrite run_ret, run_bind].
  all: destruct (get_truthy f "aggregation_key") as [w|] eqn:Ea;
    [rewrite run_bind; unfold lift; destruct (py_str w) as [b|e] eqn:Eb; [|done]|];
    rewrite run_ret, run_bind.
  all: destruct tg as [l|]; rewrite ?run_bind; cbn [read_list]; rewrite ?run_ret;
    rewrite run_bind; cbn [call_aggregator]; rewrite run_ret;
    intros [= <- <-];
    cbn [fst snd heap set_aggregator aggregator ev_tags ev_fields fmap option_fmap option_map];
    rewrite Pc, Pa.
  all: split; [done|].
  all: split; [intros k H1 H2; by rewrite ?lookup_insert_ne|].
  all: (split; [|split]);
    repeat match goal with
    | |- exists _, _ /\ _ => eexists; split; [reflexivity|]
    | |- forall k u e, _ <> Some (VUnicode u e) =>
        apply insert_not_unicode; [|done]
    end;
    repeat (rewrite lookup_insert_eq || rewrite lookup_insert_ne by done); done.
Qed.

End EncodeFacts.

Section RunMore.
Variable instance : Type.
Variable check : instance -> M unit.
Variable deepcopy : instance -> outcome instance.
Variable json_dumps : json -> outcome bytes.
Variable index_error_traceback : bytes.

(** [run] passes a copy of the first instance to [check] and adds nothing
    to what [check] does to the check object: it is left in the state in
    which [check] leaves it, whether [check] returns or raises and whether
    the exception is caught or not; when [check] returns, [run] returns the
    empty string. *)
Theorem run_state_of_check i rest i' st :
  deepcopy i = Ret i' ->
  let r := run instance check deepcopy json_dumps index_error_traceback (i :: rest) st in
  r.2 = (check i' st).2 /\
  (forall u, (check i' st).1 = Ret u -> r.1 = Ret []).
Proof.
  intros Hd r. subst r.
  unfold run, try_except, mbind, M_bind, mret, M_ret, lift.
  cbn beta iota. rewrite Hd. cbn beta iota.
  destruct (check i' st) as [[[]|e] st1]; simpl; [done|].
  split; [|done].
  destruct (is_Exception (cls e)); [|done].
  by destruct (str_exc e).
Qed.

(** What [run] can give, for every list of instances, also an empty one:
    it returns the empty string or the serialization of an exception that
    derives from Exception; and an exception leaves [run] only when it does
    not derive from Exception, or when it is raised in the handler by
    [str(e)] or by [json.dumps]. *)
Theorem run_outcome instances st :
  match (run instance check deepcopy json_dumps index_error_traceback instances st).1 with
  | Ret out =>
      out = [] \/
      exists e0 message,
        is_Exception (cls e0) = true /\ to_str e0 = inl message /\
        json_dumps (JList [JDict {[ "message"%string := JStr message;
                                    "traceback"%string := JStr (format_exc e0) ]}])
        = Ret out
  | Raise e =>
      is_Exception (cls e) = false \/
      exists e0,
        is_Exception (cls e0) = true /\
        (to_str e0 = inr e \/
         exists message,
           to_str e0 = inl message /\
           json_dumps (JList [JDict {[ "message"%string := JStr message;
                                       "traceback"%string := JStr (format_exc e0) ]}])
           = Raise e)
  end.
Proof.
  assert (Hh : forall e0 st0,
            is_Exception (cls e0) = true ->
            match ((message ← lift (str_exc e0);
                    lift (json_dumps
                            (JList [JDict {[ "message"%string := JStr message;
                                             "traceback"%string := JStr (format_exc e0) ]}])))
                     st0).1 with
            | Ret out =>
                out = [] \/
                exists e0 message,
                  is_Exception (cls e0) = true /\ to_str e0 = inl message /\
                  json_dumps (JList [JDict {[ "message"%string := JStr message;
                                              "traceback"%string := JStr (format_exc e0) ]}])
                  = Ret out
            | Raise e =>
                is_Exception (cls e) = false \/
                exists e0,
                  is_Exception (cls e0) = true /\
                  (to_str e0 = inr e \/
                   exists message,
                     to_str e0 = inl message /\
                     json_dumps (JList [JDict {[ "message"%string := JStr message;
                                                 "traceback"%string := JStr (format_exc e0) ]}])
                     = Raise e)
            end).
  { intros e0 st0 He. rewrite run_bind. unfold lift, str_exc.
    destruct (to_str e0) as [m|e1] eqn:Es; simpl.
    - destruct (json_dumps _) as [out|e2] eqn:Ej; simpl.
      + right. by exists e0, m.
      + right. exists e0. split; [done|]. right. by exists m.
    - right. exists e0. split; [done|]. by left. }
  unfold run, try_except.
  destruct instances as [|i rest].
  - rewrite run_bind. unfold raise at 1. cbv iota beta.
    change (is_Exception (cls (index_error index_error_traceback))) with true.
    cbv iota.
    by apply Hh.
  - rewrite run_bind, run_ret, run_bind. unfold lift at 1.
    destruct (deepcopy i) as [i'|e]; cbv iota beta.
    + rewrite run_bind.
      destruct (check i' st) as [[[]|e] st1]; cbv iota beta.
      * rewrite run_ret. by left.
      * destruct (is_Exception (cls e)) eqn:He; [by apply Hh | by left].
    + destruct (is_Exception (cls e)) eqn:He; [by apply Hh | by left].
Qed.

End RunMore.

(** [get_warnings] returns the messages passed to [warning] since the last
    call, oldest first, and empties the list: a second call returns no
    message.  Each message was also sent to the log. *)
Theorem get_warnings_drains msgs self :
  let self' := foldl (fun s m => (Info.warning (Ret m) s).2) self msgs in
  (Info.get_warnings self').1 = warnings self ++ msgs /\
  (Info.get_warnings (Info.get_warnings self').2).1 = [] /\
  log_warning (self_state (Info.get_warnings self').2)
  = log_warning (self_state self) ++ msgs.
Proof.
  revert self. induction msgs as [|m msgs IH]; intros self.
  - simpl. by rewrite !app_nil_r.
  - specialize (IH (Info.warning (Ret m) self).2). cbv zeta in *.
    cbn [foldl]. destruct IH as (IH1 & IH2 & IH3).
    rewrite IH1, IH3. simpl. by rewrite <- !app_assoc.
Qed.

(** The mapping that [_get_requests_proxy] returns is never empty and never
    has the key 'no_proxy': the value found under 'no_proxy' is returned
    under 'no', the other entries are returned as they are, and without a
    configuration the result is the default mapping.  An entry 'proxy' of
    [agentConfig] hides the configuration of the agent. *)
Theorem get_requests_proxy_shape a g :
  let r := _get_requests_proxy a g in
  r <> ∅ /\
  r !! "no_proxy"%string = None /\
  (forall d, default g a = Some d -> d <> ∅ ->
     (forall v, d !! "no_proxy"%string = Some v -> r !! "no"%string = Some v) /\
     (forall k, k <> "no"%string -> k <> "no_proxy"%string -> r !! k = d !! k) /\
     (d !! "no_proxy"%string = None -> r = d)) /\
  (default g a = None \/ default g a = Some ∅ -> r = no_proxy_settings).
Proof.
  intros r. subst r. unfold _get_requests_proxy.
  change (match a with Some p => p | None => g end) with (default g a).
  assert (Hdef : no_proxy_settings <> ∅ /\
                 no_proxy_settings !! "no_proxy"%string = None).
  { split; [|done]. intros H.
    assert (no_proxy_settings !! "http"%string = None) as H' by by rewrite H.
    done. }
  destruct (default g a) as [d|] eqn:E.
  - destruct (bool_decide (d = ∅)) eqn:Ed.
    + apply bool_decide_eq_true in Ed as ->.
      split; [apply Hdef|]. split; [apply Hdef|]. split; [|done].
      intros d [= <-] Hne. done.
    + apply bool_decide_eq_false in Ed.
      destruct (d !! "no_proxy"%string) as [v|] eqn:En.
      * split; [apply insert_non_empty|].
        split; [by rewrite lookup_insert_ne, lookup_delete_eq|].
        split; [|by intros [|[= ->]]].
        intros d' [= <-] _. split; [|split].
        -- intros v' Hv. rewrite lookup_insert_eq. congruence.
        -- intros k H1 H2. by rewrite lookup_insert_ne, lookup_delete_ne.
        -- congruence.
      * split; [done|]. split; [done|]. split; [|by intros [|[= ->]]].
        intros d' [= <-] _. split; [|split]; [congruence|done|done].
  - split; [apply Hdef|]. split; [apply Hdef|]. split; [done|done].
Qed.

(** [normalize_tags_type_converts] on [tags0], whose second element is
    dropped. *)
Lemma normalize_tags_type_converts_witness :
  Forall (fun t => propagates ensure_bytes0 t = false) (tags_content state1 (Some 0)) /\
  exists l',
    heap state1 !! l' = None /\
    _normalize_tags_type ensure_bytes0 (Some 0) state1 =
    (Ret l',
     set_heap
       (<[l' := TStr <$> omap (coerced ensure_bytes0) (tags_content state1 (Some 0))]>
          (heap state1))
       (set_log
          (log_warning state1 ++
           flat_map (tag_warning ensure_bytes0) (tags_content state1 (Some 0)))
          state1)) /\
    length (omap (coerced ensure_bytes0) (tags_content state1 (Some 0))) +
    length (flat_map (tag_warning ensure_bytes0) (tags_content state1 (Some 0))) =
    length (tags_content state1 (Some 0)).
Proof.
  assert (H : Forall (fun t => propagates ensure_bytes0 t = false)
                (tags_content state1 (Some 0))) by (repeat constructor).
  split; [exact H|].
  exact (normalize_tags_type_converts ensure_bytes0 (Some 0) state1 H).
Defined.

(** [normalize_tags_device] on the same list and the device 'sda'. *)
Lemma normalize_tags_device_witness :
  is_Some (_deprecations state1 !! "device_name"%string) /\
  Forall (fun t => propagates ensure_bytes0 t = false)
    (tags_content state1 (Some 0) ++ device_tags (Some (str "sda"))) /\
  exists l' st' (flag : bool) (msg : bytes),
    _normalize_tags ensure_bytes0 (Some 0) (Some (str "sda")) state1 = (Ret l', st') /\
    heap state1 !! l' = None /\
    heap st' !! l' =
      Some (TStr <$> omap (coerced ensure_bytes0)
                       (tags_content state1 (Some 0) ++ device_tags (Some (str "sda")))) /\
    (forall l0, is_Some (heap state1 !! l0) -> heap st' !! l0 = heap state1 !! l0) /\
    _deprecations state1 !! "device_name"%string = Some (flag, msg) /\
    _deprecations st' !! "device_name"%string = Some (true, msg) /\
    log_warning st' =
      log_warning state1 ++ (if flag then [] else [msg]) ++
      flat_map (tag_warning ensure_bytes0)
        (tags_content state1 (Some 0) ++ device_tags (Some (str "sda"))).
Proof.
  assert (H1 : is_Some (_deprecations state1 !! "device_name"%string))
    by (eexists; reflexivity).
  assert (H2 : Forall (fun t => propagates ensure_bytes0 t = false)
                 (tags_content state1 (Some 0) ++ device_tags (Some (str "sda"))))
    by (repeat constructor).
  split; [exact H1|]. split; [exact H2|].
  exact (normalize_tags_device ensure_bytes0 (Some 0) "s" (str "da") state1 H1 H2).
Defined.

(** [event_encodes_fields] on [event1]. *)
Lemma event_encodes_fields_witness :
  map_Forall (fun _ v => encodable v = true) (ev_fields event1) /\
  exists ev' st',
    event ensure_bytes0 (fun _ => Ret 1500000000%Z) (fun _ => Ret []) event1 state1
    = (Ret ev', st') /\
    ev_fields ev' !! "msg_title"%string = Some (VStr ["195"%char; "169"%char]) /\
    ev_fields ev' !! "timestamp"%string = Some (VInt 1500000000) /\
    (forall k u e, ev_fields ev' !! k <> Some (VUnicode u e)).
Proof.
  assert (H : map_Forall (fun _ v => encodable v = true) (ev_fields event1)).
  { intros k v Hk. apply elem_of_map_to_list in Hk. revert Hk.
    let l := eval vm_compute in (map_to_list (ev_fields event1)) in
    change (map_to_list (ev_fields event1)) with l.
    rewrite !elem_of_cons, elem_of_nil. by intros [[= -> ->]|[[= -> ->]|[]]]. }
  split; [exact H|].
  eexists _, _. split; [reflexivity|].
  pose proof (event_encodes_fields ensure_bytes0 (fun _ => Ret 1500000000%Z)
                (fun _ => Ret []) event1 state1 _ _ H eq_refl) as (_ & H1 & H2 & _ & H4).
  split; [|split; [|exact H4]].
  - rewrite H1; done.
  - destruct H2 as (z & [= <-] & H2). exact H2.
Defined.

(** [run_state_of_check] on a check that raises a ValueError. *)
Lemma run_state_of_check_witness :
  let r := run () (fun _ => raise value_error) Ret json_dumps0 [] [()] state0 in
  r.2 = (@raise unit value_error state0).2 /\
  (forall u, (@raise unit value_error state0).1 = Ret u -> r.1 = Ret []).
Proof.
  exact (run_state_of_check () (fun _ => raise value_error) Ret json_dumps0 []
           () [] () state0 eq_refl).
Defined.
